(** * typescript-quickcheck: generators, the small PRNG and the shrinkers

    A shallow embedding of [src/generator.ts] and of the [smaller] namespace
    of the arbitrary module.

    - A JavaScript number is modelled as an integer or [NaN]; the only
      non-integer numbers of the library, the outputs of [float], are kept as
      the numerator of a fraction over [2^32].
    - The [Int32Array] holding the PRNG state is a record of four integers;
      every store wraps to 32 bits as the typed array does.
    - A generator body is a function of the state that returns a value or a
      thrown exception together with the advanced state.  The [while (true)]
      loop of [suchThat] is the one unbounded loop: generators take a number
      of allowed iterations and answer [None] when it does not suffice.
    - An array is a list; where the code reads or writes by index, slots are
      optional values ([None] is [undefined]). *)

From stdpp Require Import base list gmap.
From Stdlib Require Import ZArith Lia String Ascii Sorted.
From Equations Require Import Equations.

Local Open Scope Z_scope.

(** ** JavaScript numbers *)

(** The numbers of the library are integers or [NaN].  A double holds
    every integer up to [2^53] in absolute value, so the sums and differences
    below are those of the source as long as the operands and the result stay
    in that range; beyond it the source rounds to binary64 and the statements
    are made within bounds that keep the arithmetic exact. *)
Inductive number : Type :=
| Num (z : Z)
| NaN.

(** [a + b], exact within [2^53]. *)
Definition nadd (a b : number) : number :=
  match a, b with
  | Num x, Num y => Num (x + y)
  | _, _ => NaN
  end.

(** [a - b], exact within [2^53]. *)
Definition nsub (a b : number) : number :=
  match a, b with
  | Num x, Num y => Num (x - y)
  | _, _ => NaN
  end.

(** [a % b]: the remainder takes the sign of the dividend; a zero divisor
    gives [NaN]. *)
Definition nrem (a b : number) : number :=
  match a, b with
  | Num x, Num y => if y =? 0 then NaN else Num (Z.rem x y)
  | _, _ => NaN
  end.

(** [a < b] and [a > b]: every comparison with [NaN] is false. *)
Definition nlt (a b : number) : bool :=
  match a, b with
  | Num x, Num y => x <? y
  | _, _ => false
  end.

Definition ngt (a b : number) : bool := nlt b a.

(** [a !== b] on numbers: [NaN] differs from everything. *)
Definition nne (a b : number) : bool :=
  match a, b with
  | Num x, Num y => negb (x =? y)
  | _, _ => true
  end.

(** [ToInt32] and [ToUint32] of an integer. *)
Definition toInt32 (z : Z) : Z := (z + 2 ^ 31) mod 2 ^ 32 - 2 ^ 31.
Definition toUint32 (z : Z) : Z := z mod 2 ^ 32.

(** The 32-bit operators used by the mixing function. *)
Definition shl32 (x n : Z) : Z := toInt32 (Z.shiftl (toInt32 x) n).
Definition shru32 (x n : Z) : Z := Z.shiftr (toUint32 x) n.
Definition or32 (x y : Z) : Z := toInt32 (Z.lor (toInt32 x) (toInt32 y)).
Definition xor32 (x y : Z) : Z := toInt32 (Z.lxor (toInt32 x) (toInt32 y)).

(** A number [numer / 2^32], the shape of every output of [float]. *)
Record frac32 : Type := Frac32 { numer : Z }.

(** [Math.floor(x * m)] in binary64, for [x = u / 2^32] and an integer [m]
    that a double holds exactly.  The exact product is [u * m / 2^32]; a
    product of more than 53 significant bits is rounded to nearest, ties to
    even, before the floor is taken. *)
Definition round53 (p : Z) : Z :=
  if p <? 2 ^ 53 then p
  else
    let k := Z.log2 p - 52 in
    let q := Z.shiftr p k in
    let r := p - Z.shiftl q k in
    let half := 2 ^ (k - 1) in
    let q' := if (half <? r) || ((half =? r) && Z.odd q) then q + 1 else q in
    Z.shiftl q' k.

Definition floor_fmul (x : frac32) (m : number) : number :=
  match m with
  | Num m => Num (round53 (numer x * m) / 2 ^ 32)
  | NaN => NaN
  end.

(** ** The PRNG *)

(** [RngState = Int32Array] of four words. *)
Record RngState : Type := mkRng { rng0 : Z; rng1 : Z; rng2 : Z; rng3 : Z }.

(** [randomInt32]: one round of the mixing function; the result is the new
    fourth word, the second component the state after the call. *)
Definition randomInt32 (rng : RngState) : Z * RngState :=
  let e := rng0 rng - or32 (shl32 (rng1 rng) 27) (shru32 (rng1 rng) (32 - 27)) in
  let r0 := toInt32 (xor32 (rng1 rng) (or32 (shl32 (rng2 rng) 17) (shru32 (rng2 rng) (32 - 17)))) in
  let r1 := toInt32 (rng2 rng + rng3 rng) in
  let r2 := toInt32 (rng3 rng + e) in
  let r3 := toInt32 (e + r0) in
  (r3, mkRng r0 r1 r2 r3).

(** [makeRng(seed)] for a given seed: the initial words, then twenty
    discarded rounds. *)
Definition makeRng (seed : Z) : RngState :=
  Nat.iter 20 (fun rng => snd (randomInt32 rng))
    (mkRng (toInt32 4058668781) (toInt32 seed) (toInt32 seed) (toInt32 seed)).

(** ** Results, exceptions and the generator monad *)

Inductive error : Type :=
| RangeError
| TypeError
| Error (msg : string).

Inductive result (A : Type) : Type :=
| Ok (a : A)
| Err (e : error).
Arguments Ok {A} a.
Arguments Err {A} e.

(** A computation over the shared state: [None] when the allowed number of
    loop iterations ran out, otherwise the result and the state left behind
    (the state is mutated in place, also when an exception is thrown). *)
Definition M (A : Type) : Type := RngState -> option (result A * RngState).

Definition ret {A} (a : A) : M A := fun rng => Some (Ok a, rng).

Definition throw {A} (e : error) : M A := fun rng => Some (Err e, rng).

Definition bind {A B} (m : M A) (k : A -> M B) : M B :=
  fun rng =>
    match m rng with
    | None => None
    | Some (Ok a, rng') => k a rng'
    | Some (Err e, rng') => Some (Err e, rng')
    end.

Declare Scope gen_scope.
Delimit Scope gen_scope with gen.
Notation "'do' x <- m ; k" := (bind m (fun x => k))
  (at level 10, x name, m at level 100, k at level 200) : gen_scope.
Local Open Scope gen_scope.

(** [randomInt32(rng)] as a computation. *)
Definition rand : M Z := fun rng => let (x, rng') := randomInt32 rng in Some (Ok x, rng').

(** ** Generators *)

(** [Generator<A>]: the wrapped function [(rng, size?) => A].  The first
    argument is the number of iterations allowed to each [suchThat] loop. *)
Record Generator (A : Type) : Type :=
  mkGenerator { _generate : nat -> RngState -> option Z -> option (result A * RngState) }.
Arguments mkGenerator {A} _.
Arguments _generate {A} _ _ _ _.

(** [g.generate(rng, size)] with the state given ([rng || ...] keeps it). *)
Definition generate {A} (g : Generator A) (fuel : nat) (rng : RngState) (size : option Z)
  : option (result A * RngState) :=
  _generate g fuel rng size.

(** [g.generate(rng, size)] inside a generator body. *)
Definition draw {A} (g : Generator A) (fuel : nat) (size : option Z) : M A :=
  fun rng => generate g fuel rng size.

(** [of(a)] ([of] is a keyword here). *)
Definition of_ {A} (a : A) : Generator A :=
  mkGenerator (fun _ rng _ => ret a rng).

Definition int : Generator Z :=
  mkGenerator (fun _ rng _ => rand rng).

Definition float : Generator frac32 :=
  mkGenerator (fun _ rng _ => (do x <- rand; ret (Frac32 (x + 2147483648))) rng).

(** [interval(min, max)]. *)
Definition interval (min max : number) : Generator number :=
  let magnitude := nsub max min in
  mkGenerator (fun fuel rng _ =>
    (if nlt magnitude (Num (2 ^ 32))
     then do x <- rand; ret (nadd (nrem (Num (x + 2147483648)) magnitude) min)
     else do x <- draw float fuel None; ret (nadd (floor_fmul x magnitude) min)) rng).

Definition boolean_of (x : number) : bool := nne x (Num 0).

(** The methods of the class [Generator<A>]. *)
Module Generator.

Definition map {A B} (this : Generator A) (f : A -> B) : Generator B :=
  mkGenerator (fun fuel rng size => (do a <- draw this fuel size; ret (f a)) rng).

Definition chain {A B} (this : Generator A) (f : A -> Generator B) : Generator B :=
  mkGenerator (fun fuel rng size => (do a <- draw this fuel size; draw (f a) fuel size) rng).

Definition sized {A} (this : Generator A) (size : Z) : Generator A :=
  mkGenerator (fun fuel rng _ => generate this fuel rng (Some size)).

(** The [while (true)] loop of [suchThat], allowed [n] iterations. *)
Fixpoint suchThat_loop {A} (this : Generator A) (pred : A -> bool)
    (fuel : Datatypes.nat) (size : option Z) (n : Datatypes.nat) : M A :=
  match n with
  | O => fun _ => None
  | S n' =>
      do output <- draw this fuel size;
      if pred output then ret output else suchThat_loop this pred fuel size n'
  end.

Definition suchThat {A} (this : Generator A) (pred : A -> bool) : Generator A :=
  mkGenerator (fun fuel rng size => suchThat_loop this pred fuel size fuel rng).

(** [for (let i = 0; i < n; i++) output.push(this.generate(rng, size))]
    with [n] iterations left. *)
Fixpoint ntimes_loop {A} (this : Generator A) (fuel : Datatypes.nat) (size : option Z)
    (n : Datatypes.nat) (output : list A) : M (list A) :=
  match n with
  | O => ret output
  | S n' => do a <- draw this fuel size; ntimes_loop this fuel size n' (output ++ [a])
  end.

Definition ntimes {A} (this : Generator A) (n : Z) : Generator (list A) :=
  mkGenerator (fun fuel rng size => ntimes_loop this fuel size (Z.to_nat n) [] rng).

End Generator.

Definition boolean : Generator bool :=
  Generator.map (interval (Num 0) (Num 2)) boolean_of.

(** [this.or(that)], a method of the class; it needs [boolean]. *)
Definition or {A} (this that : Generator A) : Generator A :=
  Generator.chain boolean (fun chance : bool => if chance then this else that).

(** [logsize(size)]: [max(round(log2(size + 1)), 0)], as its exact value.
    For [n >= 1] the nearest integer to [log2 n] is [k] exactly when
    [2^(2k-1) <= n^2 < 2^(2k+1)]; [log(0)] is [-Infinity], which [max] turns
    into [0], and the logarithm of a negative number is [NaN].

    The source computes [Math.log(size + 1) / Math.log(2)] in binary64.  For
    sizes under [2^32] that quotient is more than a thousand units in the
    last place away from every half-integer, so [Math.round] gives the value
    defined here ([Math.log(1)] is exactly [0]).  For larger sizes the
    rounded quotient can be one more near a half-integer (at size
    [99516432383214] the source gives [47], the exact value is [46]); the statements that rest on the value of [logsize]
    are therefore made for sizes under [2^32]. *)
Definition logsize (size : Z) : number :=
  if size + 1 <? 0 then NaN
  else if size + 1 =? 0 then Num 0
  else Num (Z.max ((Z.log2 ((size + 1) * (size + 1)) + 1) / 2) 0).

(** The default value of the parameter [size=100]. *)
Definition size_or_100 (size : option Z) : Z := default 100 size.

(** [frequency(...args)]: the walk over the cumulative weights. *)
Fixpoint frequency_loop {A} (args : list (Z * Generator A)) (acc : Z) (choice : number)
    (fuel : Datatypes.nat) (size : Z) : M A :=
  match args with
  | [] => throw (Error "Unreachable code (should never happen)")
  | (freq, gen) :: rest =>
      let acc := acc + freq in
      if ngt (Num acc) choice then draw gen fuel (Some size)
      else frequency_loop rest acc choice fuel size
  end.

Definition frequency {A} (args : list (Z * Generator A)) : Generator A :=
  let sum := foldl (fun acc x => acc + fst x) 0 args in
  let choiceGen := interval (Num 0) (Num sum) in
  mkGenerator (fun fuel rng size =>
    (do choice <- draw choiceGen fuel None;
     frequency_loop args 0 choice fuel (size_or_100 size)) rng).

(** [new Array(length)]: a [RangeError] unless [length] is an integer of
    [0 .. 2^32 - 1]; otherwise that many empty slots. *)
Definition new_Array (length : number) : M Datatypes.nat :=
  match length with
  | Num n => if (0 <=? n) && (n <? 2 ^ 32) then ret (Z.to_nat n) else throw RangeError
  | NaN => throw RangeError
  end.

(** [for (let i = 0; i < length; i++) output[i] = gen.generate(rng, size)]:
    the slots are filled in increasing order. *)
Fixpoint fill {A} (gen : Generator A) (fuel : Datatypes.nat) (size : Z) (length : Datatypes.nat)
    : M (list A) :=
  match length with
  | O => ret []
  | S n => do a <- draw gen fuel (Some size); do rest <- fill gen fuel size n; ret (a :: rest)
  end.

Definition array {A} (gen : Generator A) : Generator (list A) :=
  mkGenerator (fun fuel rng size =>
    let size := size_or_100 size in
    (do length <- draw (interval (Num 0) (logsize size)) fuel None;
     do n <- new_Array length;
     fill gen fuel size n) rng).

Definition nearray {A} (gen : Generator A) : Generator (list A) :=
  mkGenerator (fun fuel rng size =>
    let size := size_or_100 size in
    (do length <- draw (interval (Num 1) (nadd (logsize size) (Num 1))) fuel None;
     do n <- new_Array length;
     fill gen fuel size n) rng).

(** [String.fromCharCode.apply(undefined, chars)]: one code unit per
    number ([ToUint16]; the generators below only pass units under 128). *)
Definition fromCharCode (chars : list number) : string :=
  string_of_list_ascii
    (List.map (fun c => match c with
                        | Num z => ascii_of_N (Z.to_N (z mod 65536))
                        | NaN => zero
                        end) chars).

Definition ascii : Generator string :=
  Generator.map (array (interval (Num 32) (Num 127))) fromCharCode.

Definition neascii : Generator string :=
  Generator.map (nearray (interval (Num 32) (Num 127))) fromCharCode.

(** [record(fields)]: the fields in the enumeration order of [for ... in]. *)
Fixpoint record_loop {A} (fields : list (string * Generator A)) (fuel : Datatypes.nat)
    (size : option Z) : M (list (string * A)) :=
  match fields with
  | [] => ret []
  | (key, gen) :: rest =>
      do a <- draw gen fuel size; do output <- record_loop rest fuel size; ret ((key, a) :: output)
  end.

Definition record {A} (fields : list (string * Generator A)) : Generator (list (string * A)) :=
  mkGenerator (fun fuel rng size => record_loop fields fuel size rng).

(** [elems[k]] for a number [k]: [undefined] ([None]) unless [k] is an index
    of the array. *)
Definition index {A} (elems : list A) (k : number) : option A :=
  match k with
  | Num z => if 0 <=? z then elems !! Z.to_nat z else None
  | NaN => None
  end.

(** [elems.length]. *)
Definition len {A} (elems : list A) : number := Num (Z.of_nat (List.length elems)).

Module gen.

(** [elements(elems)]; the result is [undefined] when the drawn index is
    no index of [elems]. *)
Definition elements {A} (elems : list A) : Generator (option A) :=
  let indexGen := interval (Num 0) (len elems) in
  mkGenerator (fun fuel rng _ => (do i <- draw indexGen fuel None; ret (index elems i)) rng).

Definition nat : Generator Z :=
  mkGenerator (fun _ rng _ => (do x <- rand; ret (x + 2147483648)) rng).

End gen.

Definition literals {A} (elems : list A) : Generator (option A) :=
  let indexGen := interval (Num 0) (len elems) in
  mkGenerator (fun fuel rng _ => (do i <- draw indexGen fuel None; ret (index elems i)) rng).

(** [oneOf(generators)]: calling [generate] on [undefined] is a
    [TypeError]. *)
Definition oneOf {A} (generators : list (Generator A)) : Generator A :=
  mkGenerator (fun fuel rng size =>
    let size := size_or_100 size in
    (do choice <- draw (interval (Num 0) (len generators)) fuel None;
     match index generators choice with
     | Some g => draw g fuel (Some size)
     | None => throw TypeError
     end) rng).

(** [ap(a, b, ..., f)]: the generators are drawn from left to right. *)
Fixpoint ap_loop {A} (args : list (Generator A)) (fuel : Datatypes.nat) (size : option Z)
    (results : list A) : M (list A) :=
  match args with
  | [] => ret results
  | g :: rest => do a <- draw g fuel size; ap_loop rest fuel size (results ++ [a])
  end.

Definition ap {A B} (args : list (Generator A)) (func : list A -> B) : Generator B :=
  mkGenerator (fun fuel rng size => (do results <- ap_loop args fuel size []; ret (func results)) rng).

(** [traverse(arr, f)]. *)
Fixpoint traverse_loop {A B} (arr : list A) (f : A -> Generator B) (fuel : Datatypes.nat)
    (size : option Z) (output : list B) : M (list B) :=
  match arr with
  | [] => ret output
  | a :: rest => do b <- draw (f a) fuel size; traverse_loop rest f fuel size (output ++ [b])
  end.

Definition traverse {A B} (arr : list A) (f : A -> Generator B) : Generator (list B) :=
  mkGenerator (fun fuel rng size => traverse_loop arr f fuel size [] rng).

(** [recursive(genZ, genS)]: [loop(n)] draws the chances and builds the
    generator that is then run once.  [n] counts the levels left; with
    [capped = false] (the depth is [NaN], so [n <= 0] is never true) only a
    zero chance ends the recursion, and [n] is the number of levels allowed. *)
Fixpoint recursive_loop {A} (genZ : Generator A) (genS : Generator A -> Generator A)
    (chanceGen : Generator number) (fuel : Datatypes.nat) (capped : bool) (n : Datatypes.nat)
    : M (Generator A) :=
  match n with
  | O => if capped then ret genZ else fun _ => None
  | S n' =>
      do chance <- draw chanceGen fuel None;
      if nne chance (Num 0)
      then do self <- recursive_loop genZ genS chanceGen fuel capped n'; ret (genS self)
      else ret genZ
  end.

Definition recursive {A} (genZ : Generator A) (genS : Generator A -> Generator A) : Generator A :=
  let chanceGen := interval (Num 0) (Num 3) in
  mkGenerator (fun fuel rng size =>
    let size := size_or_100 size in
    (do g <- match logsize size with
             | Num n => recursive_loop genZ genS chanceGen fuel true (Z.to_nat n)
             | NaN => recursive_loop genZ genS chanceGen fuel false fuel
             end;
     draw g fuel (Some size)) rng).

(** ** Arrays read and written by index *)

(** [output[k]]: [undefined] for a hole or for a [k] that is no index. *)
Definition js_get {A} (output : list (option A)) (k : number) : option A :=
  match index output k with
  | Some slot => slot
  | None => None
  end.

(** [output[k] = v]: a write past the end extends the array, the slots in
    between staying empty; a [k] that is no index sets a property and leaves
    the elements alone. *)
Definition js_set {A} (output : list (option A)) (k : number) (v : option A) : list (option A) :=
  match k with
  | Num z =>
      if z <? 0 then output
      else
        let n := Z.to_nat z in
        if (n <? List.length output)%nat then <[n := v]> output
        else output ++ replicate (n - List.length output) None ++ [v]
  | NaN => output
  end.

(** [shuffle(array)]: the loop [for (let i = 0; i < output.length - 1; i++)],
    with [n] iterations left of the [array.length] it can take. *)
Fixpoint shuffle_loop {A} (fuel : Datatypes.nat) (n : Datatypes.nat) (i : Z)
    (output : list (option A)) : M (list (option A)) :=
  match n with
  | O => ret output
  | S n' =>
      if nlt (Num i) (nsub (len output) (Num 1)) then
        do j <- draw (interval (Num 0) (nsub (len output) (Num i))) fuel None;
        let tmp := js_get output (Num i) in
        let output := js_set output (Num i) (js_get output (nadd (Num i) j)) in
        let output := js_set output (nadd (Num i) j) tmp in
        shuffle_loop fuel n' (i + 1) output
      else ret output
  end.

Definition shuffle {A} (array : list A) : Generator (list (option A)) :=
  mkGenerator (fun fuel rng _ =>
    let output := Some <$> array in
    shuffle_loop fuel (List.length output) 0 output rng).

(** [partitions(inputs, countOrFreq)]: the inner loop finds the bucket of
    one input, [None] when no cumulative weight exceeds the choice. *)
Fixpoint partitions_pick (freq : list Z) (i : Datatypes.nat) (acc : Z) (choice : number)
    : option Datatypes.nat :=
  match freq with
  | [] => None
  | f :: rest =>
      let acc := acc + f in
      if ngt (Num acc) choice then Some i else partitions_pick rest (S i) acc choice
  end.

(** [output[i].push(input)]; there is such a bucket for every [i] the inner
    loop can give, calling [push] on [undefined] would be a [TypeError]. *)
Definition push_to {A} (output : list (list A)) (i : Datatypes.nat) (input : A) : M (list (list A)) :=
  match output !! i with
  | Some bucket => ret (<[i := bucket ++ [input]]> output)
  | None => throw TypeError
  end.

Fixpoint partitions_loop {A} (inputs : list A) (freq : list Z) (choiceGen : Generator number)
    (fuel : Datatypes.nat) (output : list (list A)) : M (list (list A)) :=
  match inputs with
  | [] => ret output
  | input :: rest =>
      do choice <- draw choiceGen fuel None;
      do output <- match partitions_pick freq 0 0 choice with
                   | Some i => push_to output i input
                   | None => ret output
                   end;
      partitions_loop rest freq choiceGen fuel output
  end.

(** [countOrFreq] is a count of buckets ([inl]; [Array(count)] accepts
    nothing but a count) or the list of their weights ([inr]). *)
Definition partitions {A} (inputs : list A) (countOrFreq : Datatypes.nat + list Z)
    : Generator (list (list A)) :=
  let count := match countOrFreq with inl count => count | inr freq => List.length freq end in
  let freq := match countOrFreq with inl count => replicate count 100 | inr freq => freq end in
  let sum := foldl (fun acc x => acc + x) 0 freq in
  let choiceGen := interval (Num 0) (Num sum) in
  mkGenerator (fun fuel rng _ =>
    let output := replicate count [] in
    partitions_loop inputs freq choiceGen fuel output rng).

(** ** [shuffle] on a store of arrays

    The arrays of the caller live in a store; [array.slice()] allocates the
    copy at a location that is not in use, and every read and write of the
    loop goes to that copy. *)

Definition loc : Type := positive.

Definition slice {A} (h : gmap loc (list (option A))) (array : loc)
    : option (loc * gmap loc (list (option A))) :=
  match h !! array with
  | Some xs => let output := fresh (dom h) in Some (output, <[output := xs]> h)
  | None => None
  end.

(** The contents of the array at [l] ([[]] for a location not in use). *)
Definition at_loc {A} (h : gmap loc (list (option A))) (l : loc) : list (option A) :=
  default [] (h !! l).

Fixpoint shuffle_store_loop {A} (fuel : Datatypes.nat) (n : Datatypes.nat) (i : Z) (output : loc)
    (h : gmap loc (list (option A))) : M (gmap loc (list (option A))) :=
  match n with
  | O => ret h
  | S n' =>
      if nlt (Num i) (nsub (len (at_loc h output)) (Num 1)) then
        do j <- draw (interval (Num 0) (nsub (len (at_loc h output)) (Num i))) fuel None;
        let tmp := js_get (at_loc h output) (Num i) in
        let h := <[output := js_set (at_loc h output) (Num i)
                                (js_get (at_loc h output) (nadd (Num i) j))]> h in
        let h := <[output := js_set (at_loc h output) (nadd (Num i) j) tmp]> h in
        shuffle_store_loop fuel n' (i + 1) output h
      else ret h
  end.

(** [shuffle(array).generate(rng)] for the array at location [array]: the
    location of the result and the store after the call.  A location that
    holds no array gives a [TypeError] ([slice] of [undefined]). *)
Definition shuffle_store {A} (h : gmap loc (list (option A))) (array : loc)
    : Generator (loc * gmap loc (list (option A))) :=
  mkGenerator (fun fuel rng _ =>
    match slice h array with
    | Some (output, h) =>
        (do h <- shuffle_store_loop fuel (List.length (at_loc h output)) 0 output h;
         ret (output, h)) rng
    | None => throw TypeError rng
    end).

(** ** The shrinkers of the namespace [smaller] *)

(** [i >> n] on a number holding an integer. *)
Definition sar32 (i n : Z) : Z := Z.shiftr (toInt32 i) n.

(** The values [i] takes in [do { i >>= 1; ... } while (i > bound)], in
    order; [bound] is [0] or [1]. *)
Equations? halvings (bound : N) (i : Z) : list Z by wf (Z.to_nat (toInt32 i)) lt :=
  halvings bound i with Z_lt_dec (Z.of_N bound) (sar32 i 1) := {
    | left more => sar32 i 1 :: halvings bound (sar32 i 1);
    | right _ => [sar32 i 1] }.
Proof.
  unfold sar32 in *.
  assert (Hr : -2 ^ 31 <= toInt32 i < 2 ^ 31).
  { unfold toInt32. pose proof (Z.mod_pos_bound (i + 2 ^ 31) (2 ^ 32)). lia. }
  set (x := toInt32 i) in *. clearbody x.
  rewrite Z.shiftr_div_pow2 in * by lia.
  change (2 ^ 1) with 2 in *. change (2 ^ 31) with 2147483648 in *.
  assert (Hid : toInt32 (x / 2) = x / 2).
  { unfold toInt32. change (2 ^ 31) with 2147483648.
    change (2 ^ 32) with 4294967296.
    rewrite Z.mod_small; Z.to_euclidean_division_equations; lia. }
  rewrite Hid. Z.to_euclidean_division_equations. lia.
Qed.

(** [x.substr(0, i)] and [x.length] with [i] between [0] and the length. *)
Definition substr0 (x : string) (i : Z) : string := String.substring 0 (Z.to_nat i) x.

Module smaller.

Definition nat (x : Z) : list Z := halvings 0 (toInt32 x).

Definition nestring (x : string) : list string :=
  List.map (substr0 x) (halvings 1 (Z.of_nat (String.length x))).

Definition string (x : String.string) : list String.string :=
  List.map (substr0 x) (halvings 0 (Z.of_nat (String.length x))).

(** [array(xs, shr)]: one copy of [xs] for every round of the loop; [shr]
    is not used. *)
Definition array {A} (xs : list A) (shr : A -> list A) : list (list A) :=
  List.map (fun _ => xs) (halvings 0 (Z.of_nat (List.length xs))).

End smaller.

(** ** The class [Arbitrary] and its primitives *)

(** [Arbitrary<A>]: a generator with an optional shrinker and an optional
    display function. *)
Record Arbitrary (A : Type) : Type :=
  mkArbitrary {
    generator : Generator A;
    shrink : option (A -> list A);
    show : option (A -> string) }.
Arguments mkArbitrary {A} _ _ _.
Arguments generator {A} _.
Arguments shrink {A} _.
Arguments show {A} _.

Module arbitrary.

Definition nat : Arbitrary Z := mkArbitrary gen.nat (Some smaller.nat) None.

Definition ascii : Arbitrary string := mkArbitrary ascii (Some smaller.string) None.

Definition neascii : Arbitrary string := mkArbitrary neascii (Some smaller.nestring) None.

End arbitrary.

(** ** Predicates used in the statements *)

(** Every word of the state left by [randomInt32] is a 32-bit integer. *)
Definition int32_words (rng : RngState) : Prop :=
  (-2 ^ 31 <= rng0 rng < 2 ^ 31) /\ (-2 ^ 31 <= rng1 rng < 2 ^ 31) /\
  (-2 ^ 31 <= rng2 rng < 2 ^ 31) /\ (-2 ^ 31 <= rng3 rng < 2 ^ 31).

(** An interval whose two bounds are integers of at most 53 bits, the
    lower one below the upper one, so that the difference and the final sum
    are exact. *)
Definition valid_interval (min max : Z) : Prop :=
  - 2 ^ 52 <= min /\ min < max /\ max <= 2 ^ 52.

(** A generator that returns a value from every state. *)
Definition total {A} (gen : Generator A) : Prop :=
  forall fuel rng size, exists a rng', generate gen fuel rng size = Some (Ok a, rng').




(** The state after [n] calls of [randomInt32]. *)
Definition rounds (n : Datatypes.nat) (rng : RngState) : RngState :=
  Nat.iter n (fun rng => snd (randomInt32 rng)) rng.

(** The unsigned value [randomInt32(rng) + 2147483648] of the next call. *)
Definition next_unsigned (rng : RngState) : Z := fst (randomInt32 rng) + 2147483648.

(** Two generators that give the same result on every call. *)
Definition same {A} (g g' : Generator A) : Prop :=
  forall fuel rng size, generate g fuel rng size = generate g' fuel rng size.

(** A string of printable ASCII characters: every code is in [[32, 127)]. *)
Definition printable (s : string) : Prop :=
  Forall (fun c => (32 <= nat_of_ascii c < 127)%nat) (list_ascii_of_string s).

(** [redraws g pred fuel size k rng r]: from the state [rng], [k] draws
    from [g] in a row return values that fail [pred], each on the state the
    one before left, and the next draw ends the sequence with [r]: a value
    that satisfies [pred], or an exception, with the state it left. *)
Inductive redraws {A} (g : Generator A) (pred : A -> bool) (fuel : Datatypes.nat)
    (size : option Z) : Datatypes.nat -> RngState -> result A * RngState -> Prop :=
| redraws_value rng a rng' :
    generate g fuel rng size = Some (Ok a, rng') -> pred a = true ->
    redraws g pred fuel size 0 rng (Ok a, rng')
| redraws_throw rng e rng' :
    generate g fuel rng size = Some (Err e, rng') ->
    redraws g pred fuel size 0 rng (Err e, rng')
| redraws_again k rng a rng1 r :
    generate g fuel rng size = Some (Ok a, rng1) -> pred a = false ->
    redraws g pred fuel size k rng1 r ->
    redraws g pred fuel size (S k) rng r.

(** Every value [g] returns satisfies [P]. *)
Definition yields {A} (g : Generator A) (P : A -> Prop) : Prop :=
  forall fuel rng size a rng', generate g fuel rng size = Some (Ok a, rng') -> P a.


(** ** Runs and generators built with the library *)

(** A sequence of calls [g.generate(rng, size)] on one state, one call for
    each size of the list: the outcome of every call (a value or the
    exception the caller catches) and the state left at the end. *)
Fixpoint generates {A} (g : Generator A) (fuel : Datatypes.nat) (rng : RngState)
    (sizes : list (option Z)) : option (list (result A) * RngState) :=
  match sizes with
  | [] => Some ([], rng)
  | size :: rest =>
      match generate g fuel rng size with
      | None => None
      | Some (r, rng') =>
          match generates g fuel rng' rest with
          | None => None
          | Some (rs, rng'') => Some (r :: rs, rng'')
          end
      end
  end.

(** [is_self self B g]: [g] is the generator [self]. *)
Inductive is_self {A} (self : Generator A) : forall B, Generator B -> Prop :=
| is_self_intro : is_self self A self.

(** The generators built from the primitives and the combinators of the
    library, the functions handed to the combinators being pure.  [base]
    holds the generators taken as given: none at the outset, and inside the
    function handed to [recursive] the generator it receives. *)
Inductive built (base : forall A, Generator A -> Prop) : forall A, Generator A -> Prop :=
| built_given A g : base A g -> built base A g
| built_of A (a : A) : built base A (of_ a)
| built_int : built base Z int
| built_nat : built base Z gen.nat
| built_float : built base frac32 float
| built_boolean : built base bool boolean
| built_ascii : built base string ascii
| built_neascii : built base string neascii
| built_interval min max : built base number (interval min max)
| built_map A B (g : Generator A) (f : A -> B) :
    built base A g -> built base B (Generator.map g f)
| built_chain A B (g : Generator A) (f : A -> Generator B) :
    built base A g -> (forall a, built base B (f a)) -> built base B (Generator.chain g f)
| built_or A (this that : Generator A) :
    built base A this -> built base A that -> built base A (or this that)
| built_sized A (g : Generator A) size : built base A g -> built base A (Generator.sized g size)
| built_suchThat A (g : Generator A) pred :
    built base A g -> built base A (Generator.suchThat g pred)
| built_ntimes A (g : Generator A) n :
    built base A g -> built base (list A) (Generator.ntimes g n)
| built_frequency A (args : list (Z * Generator A)) :
    (forall w g, (w, g) ∈ args -> built base A g) -> built base A (frequency args)
| built_array A (g : Generator A) : built base A g -> built base (list A) (array g)
| built_nearray A (g : Generator A) : built base A g -> built base (list A) (nearray g)
| built_record A (fields : list (string * Generator A)) :
    (forall key g, (key, g) ∈ fields -> built base A g) ->
    built base (list (string * A)) (record fields)
| built_elements A (elems : list A) : built base (option A) (gen.elements elems)
| built_literals A (elems : list A) : built base (option A) (literals elems)
| built_oneOf A (generators : list (Generator A)) :
    (forall g, g ∈ generators -> built base A g) -> built base A (oneOf generators)
| built_ap A B (args : list (Generator A)) (func : list A -> B) :
    (forall g, g ∈ args -> built base A g) -> built base B (ap args func)
| built_shuffle A (array : list A) : built base (list (option A)) (shuffle array)
| built_recursive A (genZ : Generator A) (genS : Generator A -> Generator A) :
    built base A genZ ->
    (forall self, built (fun B g => base B g \/ is_self self B g) A (genS self)) ->
    built base A (recursive genZ genS)
| built_partitions A (inputs : list A) countOrFreq :
    built base (list (list A)) (partitions inputs countOrFreq)
| built_traverse A B (arr : list A) (f : A -> Generator B) :
    (forall a, built base B (f a)) -> built base (list B) (traverse arr f).

(** No generator is taken as given. *)
Definition nothing_given : forall A, Generator A -> Prop := fun _ _ => False.

(** [m'] gives every result that [m] gives. *)
Definition extends {A} (m m' : M A) : Prop :=
  forall rng r, m rng = Some r -> m' rng = Some r.

(** A result of [g] stays the same when its loops are allowed more
    iterations. *)
Definition stable {A} (g : Generator A) : Prop :=
  forall fuel fuel' size, (fuel <= fuel')%nat -> extends (draw g fuel size) (draw g fuel' size).

(** * Properties *)

(** ** Machine integers and the PRNG *)

Lemma toInt32_range z : -2 ^ 31 <= toInt32 z < 2 ^ 31.
Proof.
  unfold toInt32. pose proof (Z.mod_pos_bound (z + 2 ^ 31) (2 ^ 32)). lia.
Qed.

Lemma toInt32_small z : -2 ^ 31 <= z < 2 ^ 31 -> toInt32 z = z.
Proof.
  intros Hz. unfold toInt32. rewrite Z.mod_small; lia.
Qed.

Lemma randomInt32_range rng : -2 ^ 31 <= fst (randomInt32 rng) < 2 ^ 31.
Proof. unfold randomInt32. cbn [fst]. apply toInt32_range. Qed.

Lemma randomInt32_words rng : int32_words (snd (randomInt32 rng)).
Proof.
  unfold int32_words, randomInt32. cbn [snd rng0 rng1 rng2 rng3].
  repeat split; apply toInt32_range.
Qed.

Lemma rand_eq rng : rand rng = Some (Ok (fst (randomInt32 rng)), snd (randomInt32 rng)).
Proof. unfold rand. destruct (randomInt32 rng); reflexivity. Qed.

(** ** The shrinkers *)

Lemma halvings_step bound i :
  halvings bound i =
  sar32 i 1 :: (if Z_lt_dec (Z.of_N bound) (sar32 i 1) then halvings bound (sar32 i 1) else []).
Proof.
  rewrite halvings_equation_1. destruct (Z_lt_dec (Z.of_N bound) (sar32 i 1)); reflexivity.
Qed.

Lemma sar32_1 i : -2 ^ 31 <= i < 2 ^ 31 -> sar32 i 1 = i / 2.
Proof.
  intros Hi. unfold sar32. rewrite toInt32_small by assumption.
  rewrite Z.shiftr_div_pow2 by lia. reflexivity.
Qed.

(** From a positive 32-bit [i] on, every value of the loop is smaller than
    [i] and not negative. *)
Lemma halvings_below bound i :
  0 < i < 2 ^ 31 -> Forall (fun c => 0 <= c < i) (halvings bound i).
Proof.
  remember (Z.to_nat i) as n eqn:Hn. revert i Hn.
  induction (lt_wf n) as [n _ IH]. intros i Hn Hi.
  rewrite halvings_step, sar32_1 by lia.
  assert (Hhalf : 0 <= i / 2 < i) by (Z.to_euclidean_division_equations; lia).
  constructor; [assumption|].
  destruct (Z_lt_dec (Z.of_N bound) (i / 2)) as [more|_]; [|constructor].
  eapply Forall_impl.
  - apply (IH (Z.to_nat (i / 2))); [lia | reflexivity | lia].
  - cbn beta. intros c Hc. lia.
Qed.

(** With the bound [1] of [nestring], a start of at least [2] keeps every
    value at [1] or above; the same holds of the bound [0]. *)
Lemma halvings_above bound i :
  (bound <= 1)%N -> 0 <= i < 2 ^ 31 -> Z.of_N bound <= i / 2 ->
  Forall (fun c => Z.of_N bound <= c) (halvings bound i).
Proof.
  intros Hb. remember (Z.to_nat i) as n eqn:Hn. revert i Hn.
  induction (lt_wf n) as [n _ IH]. intros i Hn Hi Hstart.
  rewrite halvings_step, sar32_1 by lia.
  constructor; [assumption|].
  destruct (Z_lt_dec (Z.of_N bound) (i / 2)) as [more|_]; [|constructor].
  apply (IH (Z.to_nat (i / 2))); [|reflexivity| |];
    Z.to_euclidean_division_equations; lia.
Qed.

Lemma substr0_length x i :
  0 <= i <= Z.of_nat (String.length x) -> Z.of_nat (String.length (substr0 x i)) = i.
Proof.
  unfold substr0. intros Hi.
  assert (Hn : (Z.to_nat i <= String.length x)%nat) by lia.
  rewrite <- (Z2Nat.id i) at 2 by lia. f_equal.
  generalize dependent (Z.to_nat i). clear. intros n. revert n.
  induction x as [|c x IH]; intros [|n] Hn; cbn in *; try lia.
  rewrite IH by lia. reflexivity.
Qed.

(** For a positive integer under [2^31], [smaller.nat] gives only smaller
    naturals. *)
Lemma smaller_nat_below x :
  0 < x < 2 ^ 31 -> Forall (fun c => 0 <= c < x) (smaller.nat x).
Proof.
  intros Hx. unfold smaller.nat. rewrite toInt32_small by lia.
  apply halvings_below. assumption.
Qed.

(** For a non-empty string, [smaller.string] gives only strictly shorter
    strings. *)
Lemma smaller_string_shorter (x : string) :
  (0 < String.length x)%nat -> Z.of_nat (String.length x) < 2 ^ 31 ->
  Forall (fun c => (String.length c < String.length x)%nat) (smaller.string x).
Proof.
  intros Hpos Hlen. unfold smaller.string.
  apply Forall_forall. intros c Hc. apply list_elem_of_In, in_map_iff in Hc.
  destruct Hc as (i & <- & Hi).
  pose proof (halvings_below 0 (Z.of_nat (String.length x)) ltac:(lia)) as Hall.
  rewrite Forall_forall in Hall. specialize (Hall i ltac:(apply list_elem_of_In; assumption)).
  pose proof (substr0_length x i ltac:(lia)). lia.
Qed.

(** For a string of two characters or more, [smaller.nestring] gives only
    strictly shorter strings, none of them empty. *)
Lemma smaller_nestring_shorter (x : string) :
  (2 <= String.length x)%nat -> Z.of_nat (String.length x) < 2 ^ 31 ->
  Forall (fun c => (1 <= String.length c < String.length x)%nat) (smaller.nestring x).
Proof.
  intros Hpos Hlen. unfold smaller.nestring.
  apply Forall_forall. intros c Hc. apply list_elem_of_In, in_map_iff in Hc.
  destruct Hc as (i & <- & Hi).
  pose proof (halvings_below 1 (Z.of_nat (String.length x)) ltac:(lia)) as Hall.
  pose proof (halvings_above 1 (Z.of_nat (String.length x)) ltac:(lia) ltac:(lia)
                ltac:(Z.to_euclidean_division_equations; lia)) as Hge.
  rewrite Forall_forall in Hall, Hge.
  specialize (Hall i ltac:(apply list_elem_of_In; assumption)).
  specialize (Hge i ltac:(apply list_elem_of_In; assumption)).
  pose proof (substr0_length x i ltac:(lia)). lia.
Qed.

(** C8.  The three shrinkers run their loop body once before the first
    test, so the smallest inputs get a candidate that is not smaller:
    [smaller.nat(0)] is [[0]], [smaller.string("")] is [[""]], and for a
    string [x] of one character [smaller.nestring(x)] is [[""]], a candidate
    of length [0]. *)
Theorem smaller_smallest_inputs :
  smaller.nat 0 = [0] /\
  smaller.string "" = [""%string] /\
  (forall c : Ascii.ascii, smaller.nestring (String c "") = [""%string]).
Proof.
  split; [reflexivity|]. split; [reflexivity|].
  intros c. unfold smaller.nestring. cbn [String.length].
  change (halvings 1 (Z.of_nat 1)) with [0]. reflexivity.
Qed.

(** From a positive [i] on, the values of the loop with bound [0] are [i]
    shifted right by [1], [2], ... bits, down to the first [0]. *)
Lemma halvings_shifts i :
  0 < i < 2 ^ 31 ->
  halvings 0 i = List.map (fun k => Z.shiftr i (Z.of_nat k)) (seq 1 (S (Z.to_nat (Z.log2 i)))).
Proof.
  remember (Z.to_nat i) as n eqn:Hn. revert i Hn.
  induction (lt_wf n) as [n _ IH]. intros i Hn Hi.
  rewrite halvings_step, sar32_1 by lia.
  assert (Hshift : Z.shiftr i 1 = i / 2) by (rewrite Z.shiftr_div_pow2 by lia; reflexivity).
  destruct (Z_lt_dec (Z.of_N 0) (i / 2)) as [more|done].
  - assert (Hhalf : 0 < i / 2 < i) by (Z.to_euclidean_division_equations; lia).
    rewrite (IH (Z.to_nat (i / 2)) ltac:(lia) (i / 2) eq_refl ltac:(lia)).
    assert (Hlog : Z.log2 i = Z.log2 (i / 2) + 1).
    { rewrite <- Hshift, Z.log2_shiftr by lia.
      assert (1 <= Z.log2 i) by (apply Z.log2_le_pow2; lia). lia. }
    pose proof (Z.log2_nonneg (i / 2)) as Hnonneg.
    rewrite Hlog. replace (Z.to_nat (Z.log2 (i / 2) + 1)) with (S (Z.to_nat (Z.log2 (i / 2)))) by lia.
    set (m := S (Z.to_nat (Z.log2 (i / 2)))).
    change (seq 1 (S m)) with (1%nat :: seq 2 m). rewrite <- (seq_shift m 1).
    cbn [List.map]. rewrite List.map_map. f_equal; [symmetry; exact Hshift|].
    apply List.map_ext. intros k. rewrite <- Hshift, Z.shiftr_shiftr by lia.
    f_equal. lia.
  - assert (Hone : i = 1) by (Z.to_euclidean_division_equations; lia). subst i. reflexivity.
Qed.

Lemma smaller_nat_shifts x :
  0 < x < 2 ^ 31 ->
  smaller.nat x = List.map (fun k => Z.shiftr x (Z.of_nat k)) (seq 1 (S (Z.to_nat (Z.log2 x)))).
Proof.
  intros Hx. unfold smaller.nat. rewrite toInt32_small by lia. apply halvings_shifts. assumption.
Qed.

(** An integer of [2^31] or more wraps to a negative one at [x | 0]: the
    only candidate is negative. *)
Lemma smaller_nat_wraps : smaller.nat 3000000000 = [-647483648].
Proof. reflexivity. Qed.

(** C9.  [smaller.nat(8)] is exactly [[4, 2, 1, 0]]: [8] shifted right by
    one, two, three and four bits. *)
Theorem smaller_nat_8 : smaller.nat 8 = [4; 2; 1; 0].
Proof.
  rewrite smaller_nat_shifts by lia.
  change (Z.log2 8) with 3. reflexivity.
Qed.

(** ** [interval] *)

(** One draw of [interval]: the state advances by one round whatever the
    bounds are, and no exception is thrown. *)
Lemma interval_generate min max fuel rng size :
  generate (interval min max) fuel rng size =
  Some (Ok (let u := fst (randomInt32 rng) + 2147483648 in
            if nlt (nsub max min) (Num (2 ^ 32))
            then nadd (nrem (Num u) (nsub max min)) min
            else nadd (floor_fmul (Frac32 u) (nsub max min)) min),
        snd (randomInt32 rng)).
Proof.
  unfold generate, interval, _generate.
  destruct (nlt (nsub max min) (Num (2 ^ 32))); unfold bind, draw, generate, float, _generate, bind;
    rewrite rand_eq; reflexivity.
Qed.

(** The product rounded to 53 bits stays under [m] after the floor. *)
Lemma round53_floor_range u m :
  0 <= u < 2 ^ 32 -> 2 ^ 32 <= m <= 2 ^ 53 ->
  0 <= round53 (u * m) / 2 ^ 32 < m.
Proof.
  intros Hu Hm. unfold round53.
  assert (Hp : 0 <= u * m <= (m - 1) * 2 ^ 32) by nia.
  destruct (Z.ltb_spec (u * m) (2 ^ 53)) as [Hsmall|Hbig].
  { split; [apply Z.div_pos; lia|]. apply Z.div_lt_upper_bound; lia. }
  set (p := u * m) in *.
  assert (Hlog : 53 <= Z.log2 p < 85).
  { split.
    - apply Z.log2_le_pow2; lia.
    - apply Z.log2_lt_pow2; [lia|].
      assert (u * m < 2 ^ 32 * 2 ^ 53) by nia.
      change (2 ^ 85) with (2 ^ 32 * 2 ^ 53). subst p. lia. }
  set (k := Z.log2 p - 52) in *.
  assert (Hk : 1 <= k <= 32) by lia.
  rewrite !Z.shiftr_div_pow2, !Z.shiftl_mul_pow2 by lia.
  set (K := 2 ^ k) in *.
  assert (HK : 0 < K) by (apply Z.pow_pos_nonneg; lia).
  assert (HJ : exists J, 0 < J /\ K * J = 2 ^ 32).
  { exists (2 ^ (32 - k)). split; [apply Z.pow_pos_nonneg; lia|].
    subst K. rewrite <- Z.pow_add_r by lia. f_equal. lia. }
  destruct HJ as (J & HJ & HKJ).
  assert (Hhalf : 0 < 2 ^ (k - 1)) by (apply Z.pow_pos_nonneg; lia).
  pose proof (Z.div_mod p K ltac:(lia)) as Hdm.
  pose proof (Z.mod_pos_bound p K HK) as Hr.
  set (q := p / K) in *.
  assert (Hq : 0 <= q) by (apply Z.div_pos; lia).
  assert (Hres : forall q', 0 <= q' -> q' * K <= (m - 1) * 2 ^ 32 ->
                            0 <= q' * K / 2 ^ 32 < m).
  { intros q' Hq0 Hq'. split; [apply Z.div_pos; nia|].
    apply Z.div_lt_upper_bound; lia. }
  destruct ((2 ^ (k - 1) <? p - q * K) || ((2 ^ (k - 1) =? p - q * K) && Z.odd q))%bool eqn:Hup.
  - apply Hres; [lia|].
    assert (Hrpos : 0 < p - q * K).
    { apply orb_true_iff in Hup as [Hup|Hup].
      - apply Z.ltb_lt in Hup. lia.
      - apply andb_true_iff in Hup as [Hup _]. apply Z.eqb_eq in Hup. lia. }
    rewrite <- HKJ in *.
    assert (q < (m - 1) * J) by nia. nia.
  - apply Hres; [lia|]. nia.
Qed.

Lemma interval_in_range min max fuel rng size :
  valid_interval min max ->
  exists x, generate (interval (Num min) (Num max)) fuel rng size
            = Some (Ok (Num x), snd (randomInt32 rng)) /\ min <= x < max.
Proof.
  intros (Hmin & Hlt & Hmax). rewrite interval_generate. cbn zeta.
  pose proof (randomInt32_range rng) as Hr.
  set (u := fst (randomInt32 rng) + 2147483648).
  assert (Hu : 0 <= u < 2 ^ 32) by (subst u; lia).
  cbn [nsub nlt].
  destruct (Z.ltb_spec (max - min) (2 ^ 32)) as [Hsmall|Hbig].
  - cbn [nrem]. destruct (Z.eqb_spec (max - min) 0) as [?|_]; [lia|].
    cbn [nadd]. eexists; split; [reflexivity|].
    pose proof (Z.rem_bound_pos u (max - min) ltac:(lia) ltac:(lia)). lia.
  - cbn [floor_fmul numer nadd]. eexists; split; [reflexivity|].
    pose proof (round53_floor_range u (max - min) Hu ltac:(lia)). lia.
Qed.

(** C2.  For integer bounds [min < max] (of at most 53 bits), every state
    and every size, [interval(min, max).generate(state, size)] returns an
    integer [x] with [min <= x < max]. *)
Theorem interval_range min max fuel rng size :
  valid_interval min max ->
  exists x rng', generate (interval (Num min) (Num max)) fuel rng size = Some (Ok (Num x), rng')
                 /\ min <= x < max.
Proof.
  intros Hvalid.
  destruct (interval_in_range min max fuel rng size Hvalid) as (x & Hgen & Hx).
  exists x, (snd (randomInt32 rng)). split; assumption.
Qed.

Lemma interval_range_witness :
  valid_interval (-3) 5 /\
  exists x rng', generate (interval (Num (-3)) (Num 5)) 0 (makeRng 7) (Some 10) = Some (Ok (Num x), rng')
                 /\ -3 <= x < 5.
Proof.
  assert (Hvalid : valid_interval (-3) 5) by (unfold valid_interval; lia).
  split; [exact Hvalid|].
  exact (interval_range (-3) 5 0%nat (makeRng 7) (Some 10) Hvalid).
Defined.

(** ** [elements] *)

Lemma index_in_range {A} (elems : list A) x :
  0 <= x < Z.of_nat (List.length elems) ->
  exists a, index elems (Num x) = Some a /\ a ∈ elems.
Proof.
  intros Hx. unfold index.
  destruct (Z.leb_spec 0 x) as [_|?]; [|lia].
  destruct (lookup_lt_is_Some_2 elems (Z.to_nat x) ltac:(lia)) as [a Ha].
  exists a. split; [assumption|]. eapply list_elem_of_lookup_2, Ha.
Qed.

(** C4 (counterexample).  [elements([])] is built without an error and a
    draw from it returns [undefined]. *)
Lemma elements_empty_undefined :
  generate (gen.elements (@nil Z)) 0 (makeRng 0) None
  = Some (Ok None, snd (randomInt32 (makeRng 0))).
Proof. reflexivity. Qed.

(** C4 (amended).  A draw from [elements(list)] never throws: it consumes
    one round of the PRNG and returns [undefined] when the list is empty, and
    one of the elements of the list when it is not. *)
Theorem elements_draw {A} (elems : list A) fuel rng size :
  Z.of_nat (List.length elems) < 2 ^ 32 ->
  exists o, generate (gen.elements elems) fuel rng size = Some (Ok o, snd (randomInt32 rng)) /\
            (elems = [] -> o = None) /\
            (elems <> [] -> exists a, o = Some a /\ a ∈ elems).
Proof.
  intros Hlen. unfold generate at 1, gen.elements, _generate, bind, draw.
  destruct elems as [|e elems].
  - rewrite interval_generate. eexists. split; [reflexivity|].
    split; [reflexivity|]. intros Hne. contradiction.
  - set (l := e :: elems) in *.
    assert (Hpos : 0 < Z.of_nat (List.length l)) by (subst l; cbn [List.length]; lia).
    destruct (interval_in_range 0 (Z.of_nat (List.length l)) fuel rng None) as (x & Hgen & Hx).
    { unfold valid_interval. lia. }
    unfold len. rewrite Hgen.
    destruct (index_in_range l x Hx) as (a & Ha & Hin).
    exists (Some a). split; [unfold ret; rewrite Ha; reflexivity|].
    split; [discriminate|]. intros _. exists a. split; [reflexivity|assumption].
Qed.

Lemma elements_draw_witness :
  Z.of_nat (List.length [10; 20; 30]) < 2 ^ 32 /\
  exists o, generate (gen.elements [10; 20; 30]) 0 (makeRng 1) None
            = Some (Ok o, snd (randomInt32 (makeRng 1))) /\
            ([10; 20; 30] = [] -> o = None) /\
            ([10; 20; 30] <> [] -> exists a, o = Some a /\ a ∈ [10; 20; 30]).
Proof.
  assert (Hlen : Z.of_nat (List.length [10; 20; 30]) < 2 ^ 32) by (cbn; lia).
  split; [exact Hlen|].
  exact (elements_draw [10; 20; 30] 0%nat (makeRng 1) None Hlen).
Defined.

(** ** [suchThat] *)

Lemma suchThat_loop_sound {A} (this : Generator A) pred fuel size n rng a rng' :
  Generator.suchThat_loop this pred fuel size n rng = Some (Ok a, rng') -> pred a = true.
Proof.
  revert rng. induction n as [|n IH]; intros rng; cbn [Generator.suchThat_loop].
  - discriminate.
  - unfold bind, draw. destruct (generate this fuel rng size) as [[[b|e] rng1]|]; try discriminate.
    destruct (pred b) eqn:Hb.
    + unfold ret. intros [= <- <-]. assumption.
    + apply IH.
Qed.

Lemma suchThat_loop_error {A} (this : Generator A) pred fuel size n rng e rng' :
  Generator.suchThat_loop this pred fuel size n rng = Some (Err e, rng') ->
  exists rng0, generate this fuel rng0 size = Some (Err e, rng').
Proof.
  revert rng. induction n as [|n IH]; intros rng; cbn [Generator.suchThat_loop].
  - discriminate.
  - unfold bind, draw. destruct (generate this fuel rng size) as [[[b|e0] rng1]|] eqn:Hdraw;
      try discriminate.
    + destruct (pred b); [unfold ret; discriminate|apply IH].
    + intros [= <- <-]. exists rng. assumption.
Qed.

Lemma suchThat_loop_never {A} (this : Generator A) pred fuel size n rng :
  (forall rng, exists a rng', generate this fuel rng size = Some (Ok a, rng') /\ pred a = false) ->
  Generator.suchThat_loop this pred fuel size n rng = None.
Proof.
  intros Hnever. revert rng. induction n as [|n IH]; intros rng; cbn [Generator.suchThat_loop].
  - reflexivity.
  - unfold bind, draw. destruct (Hnever rng) as (a & rng' & -> & ->). apply IH.
Qed.

(** C3 (counterexample).  With a predicate that nothing satisfies the loop
    of [suchThat] gives no result at all, whatever number of iterations it is
    allowed: neither a value nor a failure. *)
Lemma suchThat_no_exhaustion_failure :
  ~ exists fuel r,
      generate (Generator.suchThat (of_ 0) (fun _ : Z => false)) fuel (makeRng 0) None = Some r.
Proof.
  intros (fuel & r & Hrun). unfold generate, Generator.suchThat, _generate in Hrun.
  rewrite suchThat_loop_never in Hrun; [discriminate|].
  intros rng. exists 0, rng. split; reflexivity.
Qed.

(** The loop allowed [n] iterations gives a result exactly when at most
    [n - 1] rejected draws lead to a draw that ends the sequence, and the
    result is the one of that draw. *)
Lemma suchThat_loop_redraws {A} (this : Generator A) pred fuel size n :
  forall rng r,
    Generator.suchThat_loop this pred fuel size n rng = Some r <->
    exists k, (k < n)%nat /\ redraws this pred fuel size k rng r.
Proof.
  induction n as [|n IH]; intros rng r; cbn [Generator.suchThat_loop].
  - split; [discriminate|]. intros (k & Hk & _). lia.
  - unfold bind, draw.
    destruct (generate this fuel rng size) as [[[a|e] rng1]|] eqn:Hdraw.
    + destruct (pred a) eqn:Hpred.
      * unfold ret. split.
        -- intros [= <-]. exists 0%nat. split; [lia|]. apply redraws_value; assumption.
        -- intros (k & _ & Hk). inversion Hk; subst; congruence.
      * rewrite IH. split.
        -- intros (k & Hk & Hrest). exists (S k). split; [lia|].
           eapply redraws_again; eassumption.
        -- intros (k & Hk & Hrun). inversion Hrun; subst; try congruence.
           match goal with
           | H : generate this fuel rng size = Some (Ok ?a', ?rng1') |- _ =>
               rewrite Hdraw in H; injection H as <- <-
           end.
           eexists. split; [|eassumption]. lia.
    + split.
      * intros [= <-]. exists 0%nat. split; [lia|]. apply redraws_throw. assumption.
      * intros (k & _ & Hk). inversion Hk; subst; congruence.
    + split; [discriminate|]. intros (k & _ & Hk). inversion Hk; subst; congruence.
Qed.

(** C3 (amended).  [g.suchThat(pred)] redraws from [g] until [pred] holds,
    with no bound of its own on the attempts: allowed [fuel] iterations, it
    gives a result exactly when fewer than [fuel] draws in a row are rejected
    and the next one returns a value that satisfies [pred] or throws, and its
    result is the result of that draw.  So a value it returns satisfies
    [pred]; an exception it throws was thrown by a draw from [g]; and when
    every draw from [g] returns a value that fails [pred], it never returns
    and never fails. *)
Theorem suchThat_redraws {A} (this : Generator A) (pred : A -> bool) :
  (forall fuel rng size r,
      generate (Generator.suchThat this pred) fuel rng size = Some r <->
      exists k, (k < fuel)%nat /\ redraws this pred fuel size k rng r) /\
  (forall fuel rng size a rng',
      generate (Generator.suchThat this pred) fuel rng size = Some (Ok a, rng') -> pred a = true) /\
  (forall fuel rng size e rng',
      generate (Generator.suchThat this pred) fuel rng size = Some (Err e, rng') ->
      exists rng0, generate this fuel rng0 size = Some (Err e, rng')) /\
  ((forall fuel rng size, exists a rng',
       generate this fuel rng size = Some (Ok a, rng') /\ pred a = false) ->
   forall fuel rng size, generate (Generator.suchThat this pred) fuel rng size = None).
Proof.
  split; [|split; [|split]].
  - intros fuel rng size r. apply suchThat_loop_redraws.
  - intros fuel rng size a rng'. apply suchThat_loop_sound.
  - intros fuel rng size e rng'. apply suchThat_loop_error.
  - intros Hnever fuel rng size. apply suchThat_loop_never. intros rng0. apply Hnever.
Qed.

Lemma suchThat_redraws_witness :
  generate (Generator.suchThat gen.nat Z.even) 9 (makeRng 3) None
  = Some (Ok 3947050908, rounds 2 (makeRng 3)) /\
  Z.even 3947050908 = true /\
  generate (Generator.suchThat (of_ 1) Z.even) 9 (makeRng 3) (Some 5) = None.
Proof.
  assert (Hrun : generate (Generator.suchThat gen.nat Z.even) 9 (makeRng 3) None
                 = Some (Ok 3947050908, rounds 2 (makeRng 3))).
  { apply (proj1 (suchThat_redraws gen.nat Z.even) 9%nat (makeRng 3) None).
    exists 1%nat. split; [lia|].
    apply (redraws_again gen.nat Z.even 9 None 0 (makeRng 3) 1224201511 (rounds 1 (makeRng 3))).
    - vm_compute. reflexivity.
    - reflexivity.
    - apply redraws_value; [vm_compute; reflexivity|reflexivity]. }
  split; [exact Hrun|]. split.
  - apply (proj1 (proj2 (suchThat_redraws gen.nat Z.even)) 9%nat (makeRng 3) None 3947050908
             (rounds 2 (makeRng 3))).
    exact Hrun.
  - apply (proj2 (proj2 (proj2 (suchThat_redraws (of_ 1) Z.even)))).
    intros fuel rng size. exists 1, rng. split; reflexivity.
Defined.

(** ** [array] and [nearray] *)

Lemma logsize_0 : logsize 0 = Num 0.
Proof. reflexivity. Qed.

Lemma logsize_pos size :
  1 <= size < 2 ^ 53 -> exists k, logsize size = Num k /\ 1 <= k <= 54.
Proof.
  intros Hsize. unfold logsize.
  destruct (Z.ltb_spec (size + 1) 0) as [?|_]; [lia|].
  destruct (Z.eqb_spec (size + 1) 0) as [?|_]; [lia|].
  eexists. split; [reflexivity|].
  set (n := (size + 1) * (size + 1)).
  assert (Hlo : 2 <= Z.log2 n).
  { apply Z.log2_le_pow2; [subst n; nia|]. change (2 ^ 2) with 4. subst n. nia. }
  assert (Hhi : Z.log2 n < 108).
  { apply Z.log2_lt_pow2; [subst n; nia|].
    change (2 ^ 108) with (2 ^ 54 * 2 ^ 54). subst n.
    assert (size + 1 < 2 ^ 54) by lia. apply Z.mul_lt_mono_nonneg; lia. }
  Z.to_euclidean_division_equations. lia.
Qed.

Lemma fill_length {A} (gen : Generator A) fuel size n rng l rng' :
  fill gen fuel size n rng = Some (Ok l, rng') -> List.length l = n.
Proof.
  revert rng l rng'. induction n as [|n IH]; intros rng l rng'; cbn [fill].
  - unfold ret. intros [= <- _]. reflexivity.
  - unfold bind at 1, draw.
    destruct (generate gen fuel rng (Some size)) as [[[a|e] rng1]|]; try discriminate.
    unfold bind. destruct (fill gen fuel size n rng1) as [[[rest|e] rng2]|] eqn:Hrest;
      try discriminate.
    unfold ret. intros [= <- _]. cbn [List.length]. f_equal. eapply IH, Hrest.
Qed.

Lemma fill_total {A} (gen : Generator A) fuel size n rng :
  total gen -> exists l rng', fill gen fuel size n rng = Some (Ok l, rng').
Proof.
  intros Htotal. revert rng. induction n as [|n IH]; intros rng; cbn [fill].
  - eexists _, _. reflexivity.
  - unfold bind at 1, draw. destruct (Htotal fuel rng (Some size)) as (a & rng1 & ->).
    unfold bind. destruct (IH rng1) as (rest & rng2 & ->). eexists _, _. reflexivity.
Qed.

Lemma new_Array_ok x rng :
  0 <= x < 2 ^ 32 -> new_Array (Num x) rng = Some (Ok (Z.to_nat x), rng).
Proof.
  intros Hx. unfold new_Array.
  destruct (Z.leb_spec 0 x); [|lia]. destruct (Z.ltb_spec x (2 ^ 32)); [|lia]. reflexivity.
Qed.

Lemma array_generate {A} (gen : Generator A) fuel rng size :
  generate (array gen) fuel rng (Some size) =
  (do length <- draw (interval (Num 0) (logsize size)) fuel None;
   do n <- new_Array length; fill gen fuel size n) rng.
Proof. reflexivity. Qed.

Lemma nearray_generate {A} (gen : Generator A) fuel rng size :
  generate (nearray gen) fuel rng (Some size) =
  (do length <- draw (interval (Num 1) (nadd (logsize size) (Num 1))) fuel None;
   do n <- new_Array length; fill gen fuel size n) rng.
Proof. reflexivity. Qed.

(** X1.  For a size from [1] to under [2^32], and for a generator that
    always returns, [array(g)] returns an array of length at least [0] and
    under [logsize(size)], and [nearray(g)] one of length at least [1] and at
    most [logsize(size)]. *)
Theorem array_length_bounds {A} (gen : Generator A) fuel rng size :
  1 <= size < 2 ^ 32 -> total gen ->
  exists k, logsize size = Num k /\
    (exists l rng', generate (array gen) fuel rng (Some size) = Some (Ok l, rng') /\
                    0 <= Z.of_nat (List.length l) < k) /\
    (exists l rng', generate (nearray gen) fuel rng (Some size) = Some (Ok l, rng') /\
                    1 <= Z.of_nat (List.length l) <= k).
Proof.
  intros Hsize Htotal. destruct (logsize_pos size ltac:(lia)) as (k & Hk & Hkr).
  exists k. split; [assumption|]. split.
  - rewrite array_generate.
    unfold bind at 1, draw at 1. rewrite Hk.
    destruct (interval_in_range 0 k fuel rng None) as (x & -> & Hx); [unfold valid_interval; lia|].
    unfold bind at 1. rewrite new_Array_ok by lia.
    destruct (fill_total gen fuel size (Z.to_nat x) (snd (randomInt32 rng)) Htotal)
      as (l & rng' & Hfill).
    exists l, rng'. split; [assumption|]. apply fill_length in Hfill. lia.
  - rewrite nearray_generate.
    unfold bind at 1, draw at 1. rewrite Hk. cbn [nadd].
    destruct (interval_in_range 1 (k + 1) fuel rng None) as (x & -> & Hx);
      [unfold valid_interval; lia|].
    unfold bind at 1. rewrite new_Array_ok by lia.
    destruct (fill_total gen fuel size (Z.to_nat x) (snd (randomInt32 rng)) Htotal)
      as (l & rng' & Hfill).
    exists l, rng'. split; [assumption|]. apply fill_length in Hfill. lia.
Qed.

(** C5.  At size [0] the bounds handed to [interval] coincide
    ([logsize(0)] is [0]), the drawn length is [NaN], and both [array(g)]
    and [nearray(g)] throw the [RangeError] of [new Array(NaN)] instead of
    returning an array. *)
Theorem array_size_0_throws {A} (gen : Generator A) fuel rng :
  generate (array gen) fuel rng (Some 0) = Some (Err RangeError, snd (randomInt32 rng)) /\
  generate (nearray gen) fuel rng (Some 0) = Some (Err RangeError, snd (randomInt32 rng)).
Proof.
  split.
  - rewrite array_generate.
    unfold bind at 1, draw at 1. rewrite logsize_0, interval_generate. reflexivity.
  - rewrite nearray_generate.
    unfold bind at 1, draw at 1. rewrite logsize_0, interval_generate. reflexivity.
Qed.

(** ** [shuffle] *)

Section swap.
Context {A : Type}.
Implicit Types l : list A.

Lemma insert_Permutation l i a x :
  l !! i = Some a -> <[i := x]> l ≡ₚ x :: delete i l.
Proof.
  revert i. induction l as [|y l IH]; intros [|i] Hi; cbn in *; try discriminate.
  - reflexivity.
  - rewrite (IH i Hi). apply perm_swap.
Qed.

(** Exchanging two slots of a list permutes it. *)
Lemma swap_Permutation l i k a b :
  l !! i = Some a -> l !! k = Some b -> <[k := a]> (<[i := b]> l) ≡ₚ l.
Proof.
  revert i k. induction l as [|y l IH]; intros [|i] [|k] Hi Hk; cbn in *; try discriminate.
  - injection Hi as ->. injection Hk as ->. reflexivity.
  - injection Hi as ->. rewrite (insert_Permutation l k b a Hk).
    rewrite (delete_Permutation l k b Hk) at 2. apply perm_swap.
  - injection Hk as ->. rewrite (insert_Permutation l i a b Hi).
    rewrite (delete_Permutation l i a Hi) at 2. apply perm_swap.
  - rewrite (IH i k Hi Hk). reflexivity.
Qed.

Lemma js_get_Some l x :
  0 <= x < Z.of_nat (List.length l) -> js_get (Some <$> l) (Num x) = l !! Z.to_nat x.
Proof.
  intros Hx. unfold js_get, index. destruct (Z.leb_spec 0 x); [|lia].
  rewrite list_lookup_fmap. destruct (l !! Z.to_nat x); reflexivity.
Qed.

Lemma js_set_Some l x a :
  0 <= x < Z.of_nat (List.length l) ->
  js_set (Some <$> l) (Num x) (Some a) = Some <$> <[Z.to_nat x := a]> l.
Proof.
  intros Hx. unfold js_set. destruct (Z.ltb_spec x 0); [lia|].
  rewrite length_fmap. destruct (Nat.ltb_spec (Z.to_nat x) (List.length l)); [|lia].
  rewrite list_fmap_insert. reflexivity.
Qed.

(** The loop from index [i] on: the result is a permutation of the array
    it starts from, and it is the same for every number of allowed
    iterations that covers the [length - 1 - i] the loop takes. *)
Lemma shuffle_loop_permutes fuel k :
  forall i l rng,
    0 <= i -> Z.of_nat (List.length l) < 2 ^ 32 ->
    Z.of_nat (List.length l) - 1 - i <= Z.of_nat k ->
    exists l' rng', l' ≡ₚ l /\
      forall n, (k <= n)%nat ->
                shuffle_loop fuel n i (Some <$> l) rng = Some (Ok (Some <$> l'), rng').
Proof.
  induction k as [|k IH]; intros i l rng Hi Hlen Hk.
  - exists l, rng. split; [reflexivity|]. intros n _.
    destruct n as [|n]; cbn [shuffle_loop]; [reflexivity|].
    unfold len. rewrite length_fmap. cbn [nsub nlt].
    destruct (Z.ltb_spec i (Z.of_nat (List.length l) - 1)); [lia|reflexivity].
  - destruct (Z.lt_ge_cases i (Z.of_nat (List.length l) - 1)) as [Hmore|Hdone].
    + destruct (interval_in_range 0 (Z.of_nat (List.length l) - i) fuel rng None)
        as (j & Hdraw & Hj); [unfold valid_interval; lia|].
      destruct (lookup_lt_is_Some_2 l (Z.to_nat i) ltac:(lia)) as [a Ha].
      destruct (lookup_lt_is_Some_2 l (Z.to_nat (i + j)) ltac:(lia)) as [b Hb].
      set (l1 := <[Z.to_nat (i + j) := a]> (<[Z.to_nat i := b]> l)).
      assert (Hperm : l1 ≡ₚ l) by (apply swap_Permutation; assumption).
      assert (Hlen1 : List.length l1 = List.length l).
      { subst l1. rewrite !length_insert. reflexivity. }
      destruct (IH (i + 1) l1 (snd (randomInt32 rng)) ltac:(lia) ltac:(lia) ltac:(lia))
        as (l' & rng' & Hl' & Hrun).
      exists l', rng'. split; [rewrite Hl'; assumption|].
      intros n Hn. destruct n as [|n]; [lia|]. cbn [shuffle_loop].
      unfold len. rewrite length_fmap. cbn [nsub nlt].
      destruct (Z.ltb_spec i (Z.of_nat (List.length l) - 1)); [|lia].
      unfold bind, draw. rewrite Hdraw. cbn [nadd].
      rewrite !js_get_Some by lia. rewrite Ha, Hb.
      rewrite js_set_Some by lia.
      rewrite js_set_Some by (rewrite length_insert; lia).
      apply Hrun. lia.
    + exists l, rng. split; [reflexivity|]. intros n _.
      destruct n as [|n]; cbn [shuffle_loop]; [reflexivity|].
      unfold len. rewrite length_fmap. cbn [nsub nlt].
      destruct (Z.ltb_spec i (Z.of_nat (List.length l) - 1)); [lia|reflexivity].
Qed.

End swap.

(** C6.  For every array [xs] (of an array's length, under [2^32]) and
    every state, [shuffle(xs).generate(rng)] returns an array without
    holes, of the length of [xs], whose elements are those of [xs] with
    their multiplicities. *)
Theorem shuffle_permutation {A} (xs : list A) fuel rng size :
  Z.of_nat (List.length xs) < 2 ^ 32 ->
  exists ys rng',
    generate (shuffle xs) fuel rng size = Some (Ok (Some <$> ys), rng') /\
    List.length ys = List.length xs /\ ys ≡ₚ xs.
Proof.
  intros Hlen.
  destruct (shuffle_loop_permutes fuel (List.length xs) 0 xs rng ltac:(lia) Hlen ltac:(lia))
    as (ys & rng' & Hperm & Hrun).
  exists ys, rng'. split; [|split].
  - unfold generate, shuffle, _generate. rewrite length_fmap. apply Hrun. lia.
  - apply Permutation_length. assumption.
  - assumption.
Qed.

Lemma shuffle_permutation_witness :
  Z.of_nat (List.length [1; 2; 2; 3]) < 2 ^ 32 /\
  exists ys rng',
    generate (shuffle [1; 2; 2; 3]) 0 (makeRng 5) None = Some (Ok (Some <$> ys), rng') /\
    List.length ys = List.length [1; 2; 2; 3] /\ ys ≡ₚ [1; 2; 2; 3].
Proof.
  assert (Hlen : Z.of_nat (List.length [1; 2; 2; 3]) < 2 ^ 32) by (cbn; lia).
  split; [exact Hlen|].
  exact (shuffle_permutation [1; 2; 2; 3] 0%nat (makeRng 5) None Hlen).
Defined.

(** The empty and the one-element array come back as they are, and the
    state is not touched. *)
Lemma shuffle_short {A} (xs : list A) fuel rng size :
  (List.length xs <= 1)%nat -> generate (shuffle xs) fuel rng size = Some (Ok (Some <$> xs), rng).
Proof.
  intros Hlen. destruct xs as [|x [|y xs]]; [reflexivity|reflexivity|cbn in Hlen; lia].
Qed.

(** ** [shuffle] and the array of the caller *)

Section store.
Context {A : Type}.
Implicit Types h : gmap loc (list (option A)).

Lemma slice_fresh h array output h1 :
  slice h array = Some (output, h1) ->
  (output ∉ dom h) /\ h1 = <[output := at_loc h array]> h /\ is_Some (h !! array).
Proof.
  unfold slice, at_loc. destruct (h !! array) as [xs|] eqn:Harr; [|discriminate].
  intros [= <- <-]. split; [apply is_fresh|]. split; [reflexivity|eauto].
Qed.

Lemma at_loc_insert h l xs : at_loc (<[l := xs]> h) l = xs.
Proof. unfold at_loc. rewrite lookup_insert_eq. reflexivity. Qed.

Lemma at_loc_Some h l xs : h !! l = Some xs -> at_loc h l = xs.
Proof. unfold at_loc. intros ->. reflexivity. Qed.

(** The loop writes to the copy only. *)
Lemma shuffle_store_loop_frame fuel n :
  forall i output h rng,
  exists h' rng',
    shuffle_store_loop fuel n i output h rng = Some (Ok h', rng') /\
    forall l, l ≠ output -> h' !! l = h !! l.
Proof.
  induction n as [|n IH]; intros i output h rng; cbn [shuffle_store_loop].
  - exists h, rng. split; reflexivity.
  - destruct (nlt (Num i) (nsub (len (at_loc h output)) (Num 1))).
    + unfold bind, draw. rewrite interval_generate.
      match goal with |- context [shuffle_store_loop fuel n (i + 1) output ?h2 ?rng2] =>
        destruct (IH (i + 1) output h2 rng2) as (h' & rng' & Hrun & Hframe) end.
      exists h', rng'. split; [exact Hrun|].
      intros l Hl. rewrite Hframe by assumption.
      rewrite !lookup_insert_ne by congruence. reflexivity.
    + exists h, rng. split; reflexivity.
Qed.

(** The loop on the store does to the copy what [shuffle_loop] does to a
    list. *)
Lemma shuffle_store_loop_refines fuel n :
  forall i output h rng,
    is_Some (h !! output) ->
    shuffle_store_loop fuel n i output h rng =
    match shuffle_loop fuel n i (at_loc h output) rng with
    | Some (Ok l', rng') => Some (Ok (<[output := l']> h), rng')
    | Some (Err e, rng') => Some (Err e, rng')
    | None => None
    end.
Proof.
  induction n as [|n IH]; intros i output h rng [xs Hxs];
    cbn [shuffle_store_loop shuffle_loop].
  - unfold ret. rewrite (at_loc_Some h output xs Hxs), insert_id by assumption.
    reflexivity.
  - destruct (nlt (Num i) (nsub (len (at_loc h output)) (Num 1))).
    + unfold bind, draw. rewrite interval_generate.
      rewrite IH by (rewrite lookup_insert_eq; eauto).
      rewrite !at_loc_insert.
      match goal with |- match ?r with _ => _ end = _ => destruct r as [[[l'|e] rng']|] end;
        [|reflexivity|reflexivity].
      rewrite !insert_insert_eq. reflexivity.
    + unfold ret. rewrite (at_loc_Some h output xs Hxs), insert_id by assumption.
      reflexivity.
Qed.

(** A draw from [shuffle] on the store: the result is a new array, whose
    contents are those the list model computes from the contents of the
    argument. *)
Lemma shuffle_store_refines h array xs fuel rng size :
  h !! array = Some (Some <$> xs) ->
  generate (shuffle_store h array) fuel rng size =
  match generate (shuffle xs) fuel rng size with
  | Some (Ok ys, rng') =>
      Some (Ok (fresh (dom h), <[fresh (dom h) := ys]> h), rng')
  | Some (Err e, rng') => Some (Err e, rng')
  | None => None
  end.
Proof.
  intros Harr. unfold generate, shuffle_store, shuffle, _generate, slice. rewrite Harr.
  unfold bind. rewrite shuffle_store_loop_refines by (rewrite lookup_insert_eq; eauto).
  rewrite !at_loc_insert.
  destruct (shuffle_loop fuel (List.length (Some <$> xs)) 0 (Some <$> xs) rng)
    as [[[ys|e] rng']|]; [|reflexivity|reflexivity].
  unfold ret. rewrite insert_insert_eq. reflexivity.
Qed.

(** A second draw on the store the first one left, from the same state,
    fills its new array as the first did: the generator can be shared
    between runs. *)
Lemma shuffle_store_rerun h array xs fuel rng size out1 h1 rng1 :
  h !! array = Some (Some <$> xs) ->
  generate (shuffle_store h array) fuel rng size = Some (Ok (out1, h1), rng1) ->
  exists out2 h2,
    generate (shuffle_store h1 array) fuel rng size = Some (Ok (out2, h2), rng1) /\
    h2 !! out2 = h1 !! out1.
Proof.
  intros Harr Hrun1. rewrite (shuffle_store_refines h array xs) in Hrun1 by assumption.
  destruct (generate (shuffle xs) fuel rng size) as [[[ys|e] rng']|] eqn:Hpure;
    try discriminate.
  injection Hrun1 as <- <- <-.
  assert (Hne : fresh (dom h) ≠ array).
  { intros Heq. apply (is_fresh (dom h)). rewrite Heq. apply elem_of_dom. eauto. }
  assert (Harr1 : <[fresh (dom h) := ys]> h !! array = Some (Some <$> xs)).
  { rewrite lookup_insert_ne by assumption. assumption. }
  rewrite (shuffle_store_refines _ array xs) by assumption. rewrite Hpure.
  eexists _, _. split; [reflexivity|]. rewrite !lookup_insert_eq. reflexivity.
Qed.

End store.

(** C10.  A draw from [shuffle(xs)] returns an array at a location that
    was not in use and leaves every array of the store as it was, the
    caller's [xs] among them. *)
Theorem shuffle_leaves_input {A} (h : gmap loc (list (option A))) (array : loc)
    (xs : list (option A)) fuel rng size :
  h !! array = Some xs ->
  exists output h' rng',
    generate (shuffle_store h array) fuel rng size = Some (Ok (output, h'), rng') /\
    (output ∉ dom h) /\
    h' !! array = Some xs /\
    (forall l, l ≠ output -> h' !! l = h !! l).
Proof.
  intros Harr. unfold generate, shuffle_store, _generate.
  destruct (slice h array) as [[output h1]|] eqn:Hslice.
  - destruct (slice_fresh h array output h1 Hslice) as (Hfresh & Hh1 & _). subst h1.
    match goal with |- context [shuffle_store_loop fuel ?n 0 output ?h1] =>
      destruct (shuffle_store_loop_frame fuel n 0 output h1 rng) as (h' & rng' & Hrun & Hframe)
    end.
    assert (Hne : array ≠ output).
    { intros ->. apply Hfresh, elem_of_dom. eauto. }
    exists output, h', rng'. unfold bind. rewrite Hrun. split; [reflexivity|].
    split; [assumption|]. split.
    + rewrite Hframe by assumption. rewrite lookup_insert_ne by congruence. assumption.
    + intros l Hl. rewrite Hframe by assumption. rewrite lookup_insert_ne by congruence.
      reflexivity.
  - unfold slice in Hslice. rewrite Harr in Hslice. discriminate.
Qed.

Lemma shuffle_leaves_input_witness :
  exists output h' rng',
    generate (shuffle_store {[ 1%positive := [Some 7; Some 8; Some 9] ]} 1%positive) 0
      (makeRng 2) None = Some (Ok (output, h'), rng') /\
    (output ∉ dom ({[ 1%positive := [Some 7; Some 8; Some 9] ]} : gmap loc (list (option Z)))) /\
    h' !! 1%positive = Some [Some 7; Some 8; Some 9] /\
    (forall l, l ≠ output ->
               h' !! l = ({[ 1%positive := [Some 7; Some 8; Some 9] ]} : gmap loc _) !! l).
Proof.
  apply (shuffle_leaves_input {[ 1%positive := [Some 7; Some 8; Some 9] ]} 1%positive
           [Some 7; Some 8; Some 9] 0%nat (makeRng 2) None).
  reflexivity.
Defined.

(** ** [partitions] *)





Section buckets.
Context {A : Type}.
Implicit Types (inputs : list A) (output : list (list A)).




End buckets.


(** Without a bucket no cumulative weight exceeds the choice ([NaN]):
    the inputs are dropped and the result is the empty list of buckets. *)
Lemma partitions_without_buckets {A} (inputs : list A) fuel rng size :
  exists rng', generate (partitions inputs (inl 0%nat)) fuel rng size = Some (Ok [], rng').
Proof.
  unfold generate, partitions, _generate. cbn [replicate foldl List.length].
  revert rng. induction inputs as [|input inputs IH]; intros rng; cbn [partitions_loop].
  - eexists. reflexivity.
  - unfold bind at 1, draw. rewrite interval_generate. cbn [partitions_pick].
    unfold bind, ret. apply IH.
Qed.



(** ** Determinism *)

Lemma extends_refl {A} (m : M A) : extends m m.
Proof. intros rng r Hm. exact Hm. Qed.

(** [bind] preserves the extension of results; the continuations need only
    agree on the values the first computation can return. *)
Lemma extends_bind {A B} (m m' : M A) (k k' : A -> M B) :
  extends m m' ->
  (forall a rng rng', m rng = Some (Ok a, rng') -> extends (k a) (k' a)) ->
  extends (bind m k) (bind m' k').
Proof.
  intros Hm Hk rng r. unfold bind.
  destruct (m rng) as [[[a|e] rng1]|] eqn:Hrun; [| |discriminate].
  - rewrite (Hm rng _ Hrun). apply (Hk a rng rng1 Hrun).
  - rewrite (Hm rng _ Hrun). intros H. exact H.
Qed.

Lemma interval_fuel min max fuel fuel' size size' :
  draw (interval min max) fuel size = draw (interval min max) fuel' size'.
Proof. reflexivity. Qed.

Lemma stable_interval min max : stable (interval min max).
Proof. intros fuel fuel' size _. apply extends_refl. Qed.

Lemma stable_map {A B} (g : Generator A) (f : A -> B) : stable g -> stable (Generator.map g f).
Proof.
  intros Hg fuel fuel' size Hle.
  apply (extends_bind (draw g fuel size) (draw g fuel' size)).
  - apply Hg. assumption.
  - intros. apply extends_refl.
Qed.

Lemma stable_chain {A B} (g : Generator A) (f : A -> Generator B) :
  stable g -> (forall a, stable (f a)) -> stable (Generator.chain g f).
Proof.
  intros Hg Hf fuel fuel' size Hle.
  apply (extends_bind (draw g fuel size) (draw g fuel' size)).
  - apply Hg. assumption.
  - intros a _ _ _. apply (Hf a). assumption.
Qed.

Lemma stable_sized {A} (g : Generator A) size : stable g -> stable (Generator.sized g size).
Proof. intros Hg fuel fuel' size0 Hle. apply (Hg fuel fuel' (Some size) Hle). Qed.

Lemma suchThat_loop_extends {A} (g : Generator A) pred size fuel fuel' n n' :
  stable g -> (fuel <= fuel')%nat -> (n <= n')%nat ->
  extends (Generator.suchThat_loop g pred fuel size n) (Generator.suchThat_loop g pred fuel' size n').
Proof.
  intros Hg Hle. revert n'. induction n as [|n IH]; intros n' Hn.
  - intros rng r. discriminate.
  - destruct n' as [|n']; [lia|]. cbn [Generator.suchThat_loop].
    apply extends_bind; [apply Hg; assumption|].
    intros a _ _ _. destruct (pred a); [apply extends_refl|]. apply IH. lia.
Qed.

Lemma stable_suchThat {A} (g : Generator A) pred : stable g -> stable (Generator.suchThat g pred).
Proof.
  intros Hg fuel fuel' size Hle.
  apply (suchThat_loop_extends g pred size fuel fuel' fuel fuel' Hg Hle Hle).
Qed.

Lemma ntimes_loop_extends {A} (g : Generator A) size fuel fuel' n :
  stable g -> (fuel <= fuel')%nat ->
  forall output,
    extends (Generator.ntimes_loop g fuel size n output) (Generator.ntimes_loop g fuel' size n output).
Proof.
  intros Hg Hle. induction n as [|n IH]; intros output; cbn [Generator.ntimes_loop].
  - apply extends_refl.
  - apply extends_bind; [apply Hg; assumption|]. intros a _ _ _. apply IH.
Qed.

Lemma stable_ntimes {A} (g : Generator A) n : stable g -> stable (Generator.ntimes g n).
Proof.
  intros Hg fuel fuel' size Hle. apply (ntimes_loop_extends g size fuel fuel' _ Hg Hle).
Qed.

Lemma frequency_loop_extends {A} (args : list (Z * Generator A)) choice size fuel fuel' :
  (forall w g, (w, g) ∈ args -> stable g) -> (fuel <= fuel')%nat ->
  forall acc, extends (frequency_loop args acc choice fuel size)
                      (frequency_loop args acc choice fuel' size).
Proof.
  intros Hargs Hle. induction args as [|[freq g] args IH]; intros acc; cbn [frequency_loop].
  - apply extends_refl.
  - destruct (ngt (Num (acc + freq)) choice).
    + apply (Hargs freq g); [left|assumption].
    + apply IH. intros w g' Hin. apply (Hargs w g'). right. assumption.
Qed.

Lemma stable_frequency {A} (args : list (Z * Generator A)) :
  (forall w g, (w, g) ∈ args -> stable g) -> stable (frequency args).
Proof.
  intros Hargs fuel fuel' size Hle.
  apply (extends_bind (draw (interval _ _) fuel None) (draw (interval _ _) fuel' None)).
  - apply extends_refl.
  - intros choice _ _ _. apply frequency_loop_extends; assumption.
Qed.

Lemma fill_extends {A} (g : Generator A) size fuel fuel' n :
  stable g -> (fuel <= fuel')%nat -> extends (fill g fuel size n) (fill g fuel' size n).
Proof.
  intros Hg Hle. induction n as [|n IH]; cbn [fill].
  - apply extends_refl.
  - apply extends_bind; [apply Hg; assumption|]. intros a _ _ _.
    apply extends_bind; [apply IH|]. intros. apply extends_refl.
Qed.

Lemma stable_array {A} (g : Generator A) : stable g -> stable (array g).
Proof.
  intros Hg fuel fuel' size Hle.
  apply (extends_bind (draw (interval _ _) fuel None) (draw (interval _ _) fuel' None)).
  - apply extends_refl.
  - intros length _ _ _. apply extends_bind; [apply extends_refl|].
    intros n _ _ _. apply fill_extends; assumption.
Qed.

Lemma stable_nearray {A} (g : Generator A) : stable g -> stable (nearray g).
Proof.
  intros Hg fuel fuel' size Hle.
  apply (extends_bind (draw (interval _ _) fuel None) (draw (interval _ _) fuel' None)).
  - apply extends_refl.
  - intros length _ _ _. apply extends_bind; [apply extends_refl|].
    intros n _ _ _. apply fill_extends; assumption.
Qed.

Lemma record_loop_extends {A} (fields : list (string * Generator A)) size fuel fuel' :
  (forall key g, (key, g) ∈ fields -> stable g) -> (fuel <= fuel')%nat ->
  extends (record_loop fields fuel size) (record_loop fields fuel' size).
Proof.
  intros Hfields Hle. induction fields as [|[key g] fields IH]; cbn [record_loop].
  - apply extends_refl.
  - apply extends_bind; [apply (Hfields key g); [left|assumption]|]. intros a _ _ _.
    apply extends_bind; [|intros; apply extends_refl].
    apply IH. intros key' g' Hin. apply (Hfields key' g'). right. assumption.
Qed.

Lemma stable_record {A} (fields : list (string * Generator A)) :
  (forall key g, (key, g) ∈ fields -> stable g) -> stable (record fields).
Proof. intros Hfields fuel fuel' size Hle. apply record_loop_extends; assumption. Qed.

Lemma index_elem_of {A} (elems : list A) k a : index elems k = Some a -> a ∈ elems.
Proof.
  unfold index. destruct k as [z|]; [|discriminate].
  destruct (0 <=? z); [|discriminate]. apply list_elem_of_lookup_2.
Qed.

Lemma stable_oneOf {A} (generators : list (Generator A)) :
  (forall g, g ∈ generators -> stable g) -> stable (oneOf generators).
Proof.
  intros Hgens fuel fuel' size Hle.
  apply (extends_bind (draw (interval _ _) fuel None) (draw (interval _ _) fuel' None)).
  - apply extends_refl.
  - intros choice _ _ _. destruct (index generators choice) as [g|] eqn:Hchoice.
    + apply (Hgens g); [eapply index_elem_of, Hchoice|assumption].
    + apply extends_refl.
Qed.

Lemma ap_loop_extends {A} (args : list (Generator A)) size fuel fuel' :
  (forall g, g ∈ args -> stable g) -> (fuel <= fuel')%nat ->
  forall results, extends (ap_loop args fuel size results) (ap_loop args fuel' size results).
Proof.
  intros Hargs Hle. induction args as [|g args IH]; intros results; cbn [ap_loop].
  - apply extends_refl.
  - apply extends_bind; [apply (Hargs g); [left|assumption]|]. intros a _ _ _.
    apply IH. intros g' Hin. apply Hargs. right. assumption.
Qed.

Lemma stable_ap {A B} (args : list (Generator A)) (func : list A -> B) :
  (forall g, g ∈ args -> stable g) -> stable (ap args func).
Proof.
  intros Hargs fuel fuel' size Hle.
  apply (extends_bind (ap_loop args fuel size []) (ap_loop args fuel' size [])).
  - apply ap_loop_extends; assumption.
  - intros. apply extends_refl.
Qed.

Lemma traverse_loop_extends {A B} (arr : list A) (f : A -> Generator B) size fuel fuel' :
  (forall a, stable (f a)) -> (fuel <= fuel')%nat ->
  forall output, extends (traverse_loop arr f fuel size output) (traverse_loop arr f fuel' size output).
Proof.
  intros Hf Hle. induction arr as [|a arr IH]; intros output; cbn [traverse_loop].
  - apply extends_refl.
  - apply extends_bind; [apply (Hf a); assumption|]. intros b _ _ _. apply IH.
Qed.

Lemma stable_traverse {A B} (arr : list A) (f : A -> Generator B) :
  (forall a, stable (f a)) -> stable (traverse arr f).
Proof. intros Hf fuel fuel' size Hle. apply traverse_loop_extends; assumption. Qed.

Lemma shuffle_loop_fuel {A} fuel fuel' n :
  forall i (output : list (option A)) rng,
    shuffle_loop fuel n i output rng = shuffle_loop fuel' n i output rng.
Proof.
  induction n as [|n IH]; intros i output rng; cbn [shuffle_loop]; [reflexivity|].
  destruct (nlt (Num i) (nsub (len output) (Num 1))); [|reflexivity].
  unfold bind. rewrite (interval_fuel _ _ fuel fuel' None None).
  destruct (draw (interval (Num 0) (nsub (len output) (Num i))) fuel' None rng)
    as [[[j|e] rng']|]; [|reflexivity|reflexivity].
  apply IH.
Qed.

Lemma stable_shuffle {A} (array : list A) : stable (shuffle array).
Proof.
  intros fuel fuel' size Hle rng r. unfold draw, generate, shuffle, _generate.
  rewrite (shuffle_loop_fuel fuel fuel'). intros H. exact H.
Qed.

Lemma partitions_loop_fuel {A} (inputs : list A) freq min max fuel fuel' :
  forall output rng,
    partitions_loop inputs freq (interval min max) fuel output rng
    = partitions_loop inputs freq (interval min max) fuel' output rng.
Proof.
  induction inputs as [|input inputs IH]; intros output rng; cbn [partitions_loop];
    [reflexivity|].
  unfold bind at 1 3. rewrite (interval_fuel _ _ fuel fuel' None None).
  destruct (draw (interval min max) fuel' None rng) as [[[choice|e] rng']|];
    [|reflexivity|reflexivity].
  unfold bind.
  match goal with |- match ?m with _ => _ end = _ => destruct m as [[[output'|e] rng'']|] end;
    [|reflexivity|reflexivity].
  apply IH.
Qed.

Lemma stable_partitions {A} (inputs : list A) countOrFreq : stable (partitions inputs countOrFreq).
Proof.
  intros fuel fuel' size Hle rng r. unfold draw, generate, partitions, _generate.
  rewrite (partitions_loop_fuel inputs _ _ _ fuel fuel'). intros H. exact H.
Qed.

(** The generator that [loop(n)] builds is stable, and so is the way it is
    built. *)
Lemma recursive_loop_extends {A} (genZ : Generator A) genS min max fuel fuel'
    (capped : bool) (n n' : Datatypes.nat) :
  stable genZ -> (forall self, stable self -> stable (genS self)) ->
  (if capped then n = n' else (n <= n')%nat) ->
  extends (recursive_loop genZ genS (interval min max) fuel capped n)
          (recursive_loop genZ genS (interval min max) fuel' capped n').
Proof.
  intros HZ HS. revert n'. induction n as [|n IH]; intros n' Hn.
  - destruct capped; [subst n'; apply extends_refl|]. intros rng r. discriminate.
  - destruct n' as [|n']; [destruct capped; [discriminate|lia]|]. cbn [recursive_loop].
    apply extends_bind; [apply extends_refl|]. intros chance _ _ _.
    destruct (nne chance (Num 0)); [|apply extends_refl].
    apply extends_bind; [|intros; apply extends_refl].
    apply IH. destruct capped; [congruence|lia].
Qed.

Lemma recursive_loop_stable {A} (genZ : Generator A) genS chanceGen fuel capped n :
  stable genZ -> (forall self, stable self -> stable (genS self)) ->
  forall rng g rng',
    recursive_loop genZ genS chanceGen fuel capped n rng = Some (Ok g, rng') -> stable g.
Proof.
  intros HZ HS. induction n as [|n IH]; intros rng g rng'; cbn [recursive_loop].
  - destruct capped; [|discriminate]. unfold ret. intros [= <- _]. assumption.
  - unfold bind at 1. destruct (draw chanceGen fuel None rng) as [[[chance|e] rng1]|];
      try discriminate.
    destruct (nne chance (Num 0)).
    + unfold bind. destruct (recursive_loop genZ genS chanceGen fuel capped n rng1)
        as [[[self|e] rng2]|] eqn:Hself; try discriminate.
      unfold ret. intros [= <- _]. apply HS. eapply IH, Hself.
    + unfold ret. intros [= <- _]. assumption.
Qed.

Lemma stable_recursive {A} (genZ : Generator A) genS :
  stable genZ -> (forall self, stable self -> stable (genS self)) ->
  stable (recursive genZ genS).
Proof.
  intros HZ HS fuel fuel' size Hle.
  unfold draw at 1 2, generate, recursive, _generate.
  destruct (logsize (size_or_100 size)) as [n|].
  - apply (extends_bind (recursive_loop genZ genS _ fuel true (Z.to_nat n))
                        (recursive_loop genZ genS _ fuel' true (Z.to_nat n))).
    + apply recursive_loop_extends; [assumption|assumption|reflexivity].
    + intros g rng rng' Hg. apply (recursive_loop_stable _ _ _ _ _ _ HZ HS _ _ _ Hg).
      assumption.
  - apply (extends_bind (recursive_loop genZ genS _ fuel false fuel)
                        (recursive_loop genZ genS _ fuel' false fuel')).
    + apply recursive_loop_extends; assumption.
    + intros g rng rng' Hg. apply (recursive_loop_stable _ _ _ _ _ _ HZ HS _ _ _ Hg).
      assumption.
Qed.

(** Every generator built with the library is stable. *)
Lemma built_stable base A (g : Generator A) :
  built base A g -> (forall B g', base B g' -> stable g') -> stable g.
Proof.
  induction 1 as
    [ base A g Hg | base A a | base | base | base | base | base | base | base min max
    | base A B g f _ IHg | base A B g f _ IHg _ IHf | base A this that _ IH1 _ IH2
    | base A g size _ IHg | base A g pred _ IHg | base A g n _ IHg
    | base A args _ IHargs | base A g _ IHg | base A g _ IHg | base A fields _ IHfields
    | base A elems | base A elems | base A generators _ IHgens | base A B args func _ IHargs
    | base A array | base A genZ genS _ IHZ _ IHS | base A inputs countOrFreq
    | base A B arr f _ IHf ];
    intros Hbase.
  - apply (Hbase A g Hg).
  - intros fuel fuel' size _. apply extends_refl.
  - intros fuel fuel' size _. apply extends_refl.
  - intros fuel fuel' size _. apply extends_refl.
  - intros fuel fuel' size _. apply extends_refl.
  - apply stable_map, stable_interval.
  - apply stable_map, stable_array, stable_interval.
  - apply stable_map, stable_nearray, stable_interval.
  - apply stable_interval.
  - apply stable_map, IHg, Hbase.
  - apply stable_chain; [apply IHg, Hbase|]. intros a. apply IHf, Hbase.
  - apply stable_chain; [apply stable_map, stable_interval|].
    intros [|]; [apply IH1|apply IH2]; apply Hbase.
  - apply stable_sized, IHg, Hbase.
  - apply stable_suchThat, IHg, Hbase.
  - apply stable_ntimes, IHg, Hbase.
  - apply stable_frequency. intros w g Hin. apply (IHargs w g Hin), Hbase.
  - apply stable_array, IHg, Hbase.
  - apply stable_nearray, IHg, Hbase.
  - apply stable_record. intros key g Hin. apply (IHfields key g Hin), Hbase.
  - intros fuel fuel' size _. apply extends_refl.
  - intros fuel fuel' size _. apply extends_refl.
  - apply stable_oneOf. intros g Hin. apply (IHgens g Hin), Hbase.
  - apply stable_ap. intros g Hin. apply (IHargs g Hin), Hbase.
  - apply stable_shuffle.
  - apply stable_recursive; [apply IHZ, Hbase|]. intros self Hself. apply IHS.
    intros B g' [Hg'|Hg']; [apply (Hbase B g' Hg')|]. destruct Hg'. assumption.
  - apply stable_partitions.
  - apply stable_traverse. intros a. apply IHf, Hbase.
Qed.

Lemma generates_extends {A} (g : Generator A) fuel fuel' sizes :
  stable g -> (fuel <= fuel')%nat ->
  forall rng run, generates g fuel rng sizes = Some run -> generates g fuel' rng sizes = Some run.
Proof.
  intros Hg Hle. induction sizes as [|size sizes IH]; intros rng run; cbn [generates].
  - intros H. exact H.
  - destruct (generate g fuel rng size) as [[r rng']|] eqn:Hcall; [|discriminate].
    pose proof (Hg fuel fuel' size Hle rng _ Hcall) as Hcall'. unfold draw in Hcall'.
    rewrite Hcall'.
    destruct (generates g fuel rng' sizes) as [[rs rng'']|] eqn:Hrest; [|discriminate].
    rewrite (IH rng' _ Hrest). intros H. exact H.
Qed.

(** C1.  For a generator built from the primitives and the combinators of
    the library, a seed and a sequence of sizes, two runs that each make their
    state with [makeRng(seed)] and then call [generate] once for every size
    of the sequence return the same outputs, call by call, and leave equal
    states, whatever number of iterations each run allows to its loops. *)
Theorem generate_deterministic {A} (g : Generator A) (seed : Z) (sizes : list (option Z))
    fuel1 fuel2 run1 run2 :
  built nothing_given A g ->
  generates g fuel1 (makeRng seed) sizes = Some run1 ->
  generates g fuel2 (makeRng seed) sizes = Some run2 ->
  run1 = run2.
Proof.
  intros Hbuilt Hrun1 Hrun2.
  assert (Hg : stable g) by (apply (built_stable nothing_given A g Hbuilt); intros B g' []).
  apply (generates_extends g fuel1 (Nat.max fuel1 fuel2) sizes Hg (Nat.le_max_l _ _)) in Hrun1.
  apply (generates_extends g fuel2 (Nat.max fuel1 fuel2) sizes Hg (Nat.le_max_r _ _)) in Hrun2.
  congruence.
Qed.

Lemma built_sum_tree :
  built nothing_given Z
    (recursive gen.nat (fun self => Generator.map (Generator.ntimes self 2) (foldl Z.add 0))).
Proof.
  apply built_recursive; [apply built_nat|].
  intros self. apply built_map, built_ntimes, built_given. right. constructor.
Qed.

Lemma generate_deterministic_witness :
  exists run1 run2,
    generates
      (Generator.suchThat
         (recursive gen.nat (fun self => Generator.map (Generator.ntimes self 2) (foldl Z.add 0)))
         Z.even)
      30 (makeRng 42) [Some 5; None; Some 20] = Some run1 /\
    generates
      (Generator.suchThat
         (recursive gen.nat (fun self => Generator.map (Generator.ntimes self 2) (foldl Z.add 0)))
         Z.even)
      50 (makeRng 42) [Some 5; None; Some 20] = Some run2 /\
    run1 = run2.
Proof.
  eexists _, _. split; [vm_compute; reflexivity|]. split; [vm_compute; reflexivity|].
  apply (generate_deterministic
           (Generator.suchThat
              (recursive gen.nat
                 (fun self => Generator.map (Generator.ntimes self 2) (foldl Z.add 0)))
              Z.even)
           42 [Some 5; None; Some 20] 30%nat 50%nat).
  - apply built_suchThat, built_sum_tree.
  - vm_compute. reflexivity.
  - vm_compute. reflexivity.
Defined.

(** ** Further properties of the spec *)

Lemma total_nat : total gen.nat.
Proof.
  intros fuel rng size. unfold generate, gen.nat, _generate, bind. rewrite rand_eq.
  eexists _, _. reflexivity.
Qed.

Lemma array_length_bounds_witness :
  exists k, logsize 100 = Num k /\
    (exists l rng', generate (array gen.nat) 0 (makeRng 9) (Some 100) = Some (Ok l, rng') /\
                    0 <= Z.of_nat (List.length l) < k) /\
    (exists l rng', generate (nearray gen.nat) 0 (makeRng 9) (Some 100) = Some (Ok l, rng') /\
                    1 <= Z.of_nat (List.length l) <= k).
Proof.
  apply (array_length_bounds gen.nat 0%nat (makeRng 9) 100); [lia|apply total_nat].
Defined.

(** [frequency([[1, A], [0, B]])] draws from [A] only: after the draw of
    the choice it is a draw from [A]. *)
Theorem frequency_zero_weight {A} (a b : Generator A) fuel rng size :
  generate (frequency [(1, a); (0, b)]) fuel rng size
  = generate a fuel (snd (randomInt32 rng)) (Some (size_or_100 size)).
Proof.
  unfold generate at 1, frequency, _generate. cbn [foldl fst].
  unfold bind, draw. rewrite interval_generate. cbn [nsub nlt nrem nadd].
  change (0 + 1 - 0 <? 2 ^ 32) with true. change (0 + 1 - 0 =? 0) with false.
  cbn iota beta zeta. change (0 + 1 - 0) with 1. rewrite Z.rem_1_r.
  reflexivity.
Qed.

Lemma logsize_value size :
  0 <= size -> logsize size = Num ((Z.log2 ((size + 1) * (size + 1)) + 1) / 2).
Proof.
  intros Hsize. unfold logsize.
  destruct (Z.ltb_spec (size + 1) 0) as [?|_]; [lia|].
  destruct (Z.eqb_spec (size + 1) 0) as [?|_]; [lia|].
  f_equal. apply Z.max_l.
  pose proof (Z.log2_nonneg ((size + 1) * (size + 1))).
  Z.to_euclidean_division_equations. lia.
Qed.

(** X4.  Away from the smallest inputs the shrinkers do shrink: for an integer
    [x] with [0 < x < 2^31] every candidate of [smaller.nat] is a natural
    number under [x]; for a non-empty string every candidate of
    [smaller.string] is strictly shorter; for a string of two characters or
    more every candidate of [smaller.nestring] is strictly shorter and not
    empty. *)
Theorem shrinkers_decrease (x : Z) (s t : string) :
  0 < x < 2 ^ 31 ->
  (0 < String.length s)%nat -> Z.of_nat (String.length s) < 2 ^ 31 ->
  (2 <= String.length t)%nat -> Z.of_nat (String.length t) < 2 ^ 31 ->
  Forall (fun c => 0 <= c < x) (smaller.nat x) /\
  Forall (fun c => (String.length c < String.length s)%nat) (smaller.string s) /\
  Forall (fun c => (1 <= String.length c < String.length t)%nat) (smaller.nestring t).
Proof.
  intros Hx Hs Hs' Ht Ht'. split; [|split].
  - apply smaller_nat_below. assumption.
  - apply smaller_string_shorter; assumption.
  - apply smaller_nestring_shorter; assumption.
Qed.

Lemma shrinkers_decrease_witness :
  Forall (fun c => 0 <= c < 100) (smaller.nat 100) /\
  Forall (fun c => (String.length c < String.length "abcd")%nat) (smaller.string "abcd") /\
  Forall (fun c => (1 <= String.length c < String.length "abcde")%nat) (smaller.nestring "abcde").
Proof.
  apply (shrinkers_decrease 100 "abcd" "abcde"); cbn; lia.
Defined.



(** ** The PRNG step *)

Lemma toInt32_congr z : exists k, z = toInt32 z + 2 ^ 32 * k.
Proof.
  unfold toInt32. exists ((z + 2 ^ 31) / 2 ^ 32).
  pose proof (Z.div_mod (z + 2 ^ 31) (2 ^ 32) ltac:(lia)). lia.
Qed.

Lemma toInt32_eq_congr a b : toInt32 a = toInt32 b -> exists k, a - b = 2 ^ 32 * k.
Proof.
  intros Hab. destruct (toInt32_congr a) as [ka Ha]. destruct (toInt32_congr b) as [kb Hb].
  exists (ka - kb). lia.
Qed.

Lemma toInt32_period z k : toInt32 (z + 2 ^ 32 * k) = toInt32 z.
Proof.
  unfold toInt32. f_equal.
  replace (z + 2 ^ 32 * k + 2 ^ 31) with (z + 2 ^ 31 + k * 2 ^ 32) by lia.
  apply Z_mod_plus_full.
Qed.

Lemma toInt32_idem z : toInt32 (toInt32 z) = toInt32 z.
Proof. apply toInt32_small, toInt32_range. Qed.

(** A 32-bit integer is one whose bits from the 31st on are all the sign. *)
Lemma int32_shiftr z : -2 ^ 31 <= z < 2 ^ 31 <-> (Z.shiftr z 31 = 0 \/ Z.shiftr z 31 = -1).
Proof.
  rewrite Z.shiftr_div_pow2 by lia. split; intros H; Z.to_euclidean_division_equations; lia.
Qed.

Lemma lxor_int32 a b :
  -2 ^ 31 <= a < 2 ^ 31 -> -2 ^ 31 <= b < 2 ^ 31 -> -2 ^ 31 <= Z.lxor a b < 2 ^ 31.
Proof.
  rewrite !int32_shiftr, Z.shiftr_lxor. intros [-> | ->] [-> | ->]; cbn; auto.
Qed.

(** On 32-bit integers the exclusive or with a fixed word loses nothing. *)
Lemma xor32_cancel x x' c :
  -2 ^ 31 <= x < 2 ^ 31 -> -2 ^ 31 <= x' < 2 ^ 31 -> xor32 x c = xor32 x' c -> x = x'.
Proof.
  intros Hx Hx'. unfold xor32. rewrite !(toInt32_small x), !(toInt32_small x') by assumption.
  pose proof (toInt32_range c) as Hc. set (c' := toInt32 c) in *.
  rewrite !toInt32_small by (apply lxor_int32; assumption).
  intros Heq. apply (f_equal (fun z => Z.lxor z c')) in Heq. cbn beta in Heq.
  rewrite !Z.lxor_assoc, Z.lxor_nilpotent, !Z.lxor_0_r in Heq. exact Heq.
Qed.

(** The step of the PRNG loses no state: two states of 32-bit words that
    [randomInt32] leaves equal were equal before the call. *)
Theorem randomInt32_injective rng rng' :
  int32_words rng -> int32_words rng' ->
  snd (randomInt32 rng) = snd (randomInt32 rng') -> rng = rng'.
Proof.
  destruct rng as [a0 a1 a2 a3], rng' as [b0 b1 b2 b3].
  unfold int32_words, randomInt32. cbn [rng0 rng1 rng2 rng3 snd].
  intros (Ha0 & Ha1 & Ha2 & Ha3) (Hb0 & Hb1 & Hb2 & Hb3) [= H0 H1 H2 H3].
  rewrite H0 in H3.
  set (ra := or32 (shl32 a1 27) (shru32 a1 (32 - 27))) in *.
  set (rb := or32 (shl32 b1 27) (shru32 b1 (32 - 27))) in *.
  apply toInt32_eq_congr in H3 as [k3 H3].
  apply toInt32_eq_congr in H2 as [k2 H2].
  apply toInt32_eq_congr in H1 as [k1 H1].
  assert (E3 : a3 = b3) by lia. subst b3.
  assert (E2 : a2 = b2) by lia. subst b2.
  assert (Hx : forall x c, toInt32 (xor32 x c) = xor32 x c).
  { intros x c. unfold xor32. apply toInt32_idem. }
  rewrite !Hx in H0.
  assert (E1 : a1 = b1) by (eapply xor32_cancel; eassumption). subst b1.
  assert (E0 : a0 = b0) by (subst ra rb; lia). subst b0.
  reflexivity.
Qed.

Lemma randomInt32_injective_witness :
  int32_words (mkRng 1 2 3 4) /\ int32_words (mkRng (1 + 0) 2 3 4) /\
  mkRng 1 2 3 4 = mkRng (1 + 0) 2 3 4.
Proof.
  assert (Ha : int32_words (mkRng 1 2 3 4)) by (unfold int32_words; cbn; lia).
  assert (Hb : int32_words (mkRng (1 + 0) 2 3 4)) by (unfold int32_words; cbn; lia).
  split; [exact Ha|]. split; [exact Hb|].
  apply (randomInt32_injective (mkRng 1 2 3 4) (mkRng (1 + 0) 2 3 4) Ha Hb).
  reflexivity.
Defined.

(** The states the library makes hold 32-bit words, and so they stay. *)
Lemma makeRng_words seed : int32_words (makeRng seed).
Proof. unfold makeRng. cbn [Nat.iter]. apply randomInt32_words. Qed.

Lemma rounds_words n rng : int32_words rng -> int32_words (rounds n rng).
Proof.
  intros Hrng. destruct n as [|n]; [assumption|]. unfold rounds. cbn [Nat.iter].
  apply randomInt32_words.
Qed.

(** Only the 32 low bits of the seed count: seeds that differ by a multiple
    of [2^32] start the same sequence. *)
Theorem makeRng_seed_32_bits seed k : makeRng (seed + 2 ^ 32 * k) = makeRng seed.
Proof. unfold makeRng. rewrite toInt32_period. reflexivity. Qed.

(** The ranges of the primitives: a draw from [int], [nat] or [float] takes
    one round of the PRNG and returns an integer of [[-2^31, 2^31)], an
    integer of [[0, 2^32)], and a fraction [u / 2^32] with [u] in
    [[0, 2^32)], which is a number of [[0, 1)]. *)
Theorem primitives_range fuel rng size :
  (exists x, generate int fuel rng size = Some (Ok x, rounds 1 rng) /\ -2 ^ 31 <= x < 2 ^ 31) /\
  (exists x, generate gen.nat fuel rng size = Some (Ok x, rounds 1 rng) /\ 0 <= x < 2 ^ 32) /\
  (exists u, generate float fuel rng size = Some (Ok (Frac32 u), rounds 1 rng) /\ 0 <= u < 2 ^ 32).
Proof.
  pose proof (randomInt32_range rng) as Hr.
  unfold generate, int, gen.nat, float, _generate, bind, rounds. cbn [Nat.iter].
  rewrite rand_eq. unfold ret.
  split; [|split]; eexists; (split; [reflexivity|lia]).
Qed.

(** ** How the methods compose *)

Lemma same_refl {A} (g : Generator A) : same g g.
Proof. intros fuel rng size. reflexivity. Qed.

(** [chain] and [of] obey the laws of a monad: [of(a).chain(f)] is [f(a)],
    [g.chain(of)] is [g], and chaining twice is chaining with the chained
    function. *)
Theorem chain_laws {A B C} (g : Generator A) (a : A) (f : A -> Generator B)
    (h : B -> Generator C) :
  same (Generator.chain (of_ a) f) (f a) /\
  same (Generator.chain g of_) g /\
  same (Generator.chain (Generator.chain g f) h)
       (Generator.chain g (fun x => Generator.chain (f x) h)).
Proof.
  split; [|split]; intros fuel rng size;
    unfold generate, Generator.chain, of_; cbn [_generate];
    unfold bind, draw, generate, ret; cbn [_generate].
  - reflexivity.
  - destruct (_generate g fuel rng size) as [[[x|e] rng']|]; reflexivity.
  - destruct (_generate g fuel rng size) as [[[x|e] rng']|]; reflexivity.
Qed.

(** [map] is [chain] with [of], it preserves the identity, and mapping
    twice is mapping the composed function. *)
Theorem map_laws {A B C} (g : Generator A) (f : A -> B) (h : B -> C) :
  same (Generator.map g f) (Generator.chain g (fun x => of_ (f x))) /\
  same (Generator.map g (fun x => x)) g /\
  same (Generator.map (Generator.map g f) h) (Generator.map g (fun x => h (f x))).
Proof.
  split; [|split]; intros fuel rng size;
    unfold generate, Generator.map, Generator.chain, of_; cbn [_generate];
    unfold bind, draw, generate, ret; cbn [_generate].
  - destruct (_generate g fuel rng size) as [[[x|e] rng']|]; reflexivity.
  - destruct (_generate g fuel rng size) as [[[x|e] rng']|]; reflexivity.
  - destruct (_generate g fuel rng size) as [[[x|e] rng']|]; reflexivity.
Qed.

(** [sized] fixes the size once: a second [sized] on top changes nothing,
    [sized] goes through [map] and [chain], and it does nothing to a
    generator that ignores the size, such as [interval]. *)
Theorem sized_laws {A B} (g : Generator A) (f : A -> B) (k : A -> Generator B) (n m : Z)
    (min max : number) :
  same (Generator.sized (Generator.sized g n) m) (Generator.sized g n) /\
  same (Generator.sized (Generator.map g f) n) (Generator.map (Generator.sized g n) f) /\
  same (Generator.sized (Generator.chain g k) n)
       (Generator.chain (Generator.sized g n) (fun x => Generator.sized (k x) n)) /\
  same (Generator.sized (interval min max) n) (interval min max).
Proof.
  repeat split; intros fuel rng size; reflexivity.
Qed.

(** ** [boolean] and [or] *)

Lemma rem_2_odd u : negb (Z.rem u 2 + 0 =? 0) = Z.odd u.
Proof.
  rewrite Z.add_0_r. pose proof (Z.rem_bound_abs u 2 ltac:(lia)) as Hb.
  pose proof (Z.quot_rem u 2 ltac:(lia)) as Hq.
  destruct (Z.odd u) eqn:Hodd.
  - apply negb_true_iff, Z.eqb_neq. intros H0. rewrite H0, Z.add_0_r in Hq.
    rewrite Hq, Z.odd_mul in Hodd. discriminate.
  - apply negb_false_iff, Z.eqb_eq.
    rewrite <- Z.negb_even in Hodd. apply negb_false_iff, Z.even_spec in Hodd as [k Hk].
    subst u. rewrite Z.mul_comm. apply Z.rem_mul. lia.
Qed.

(** [boolean] is the parity of the next unsigned output of the PRNG, and
    [this.or(that)] spends that one round on the choice: it then draws from
    [this] when the output is odd and from [that] when it is even, with the
    size it was given. *)
Theorem or_picks_by_parity {A} (this that : Generator A) fuel rng size :
  generate boolean fuel rng size = Some (Ok (Z.odd (next_unsigned rng)), rounds 1 rng) /\
  generate (or this that) fuel rng size =
  if Z.odd (next_unsigned rng) then generate this fuel (rounds 1 rng) size
  else generate that fuel (rounds 1 rng) size.
Proof.
  assert (Hbool : generate boolean fuel rng size
                  = Some (Ok (Z.odd (next_unsigned rng)), rounds 1 rng)).
  { unfold generate at 1, boolean, Generator.map. cbn [_generate].
    unfold bind, draw. rewrite interval_generate. cbn [nsub nlt nrem nadd].
    change (2 - 0 <? 2 ^ 32) with true. change (2 - 0 =? 0) with false.
    cbn iota. unfold ret, boolean_of, nne. change (2 - 0) with 2. cbn [nadd].
    fold (next_unsigned rng). rewrite rem_2_odd. reflexivity. }
  split; [exact Hbool|].
  unfold generate at 1, or, Generator.chain. cbn [_generate]. unfold bind, draw.
  rewrite Hbool. destruct (Z.odd (next_unsigned rng)); reflexivity.
Qed.

(** ** [interval] outside its range of use *)

Lemma next_unsigned_range rng : 0 <= next_unsigned rng < 2 ^ 32.
Proof. unfold next_unsigned. pose proof (randomInt32_range rng). lia. Qed.

(** No bounds make [interval] throw.  For integer bounds within [2^52] in
    absolute value: with equal bounds a draw returns [NaN]; with [max] below
    [min] (and a difference under [2^32]) it returns an integer of the
    mirrored range [[min, min + (min - max))]. *)
Theorem interval_degenerate min max fuel rng size :
  - 2 ^ 52 <= max -> max <= min -> min <= 2 ^ 52 -> min - max < 2 ^ 32 ->
  exists r, generate (interval (Num min) (Num max)) fuel rng size = Some (Ok r, rounds 1 rng) /\
            (max = min -> r = NaN) /\
            (max < min -> exists x, r = Num x /\ min <= x < min + (min - max)).
Proof.
  intros _ Hle _ Hmag. rewrite interval_generate. cbn zeta. fold (next_unsigned rng).
  pose proof (next_unsigned_range rng) as Hu. cbn [nsub nlt].
  destruct (Z.ltb_spec (max - min) (2 ^ 32)) as [_|?]; [|lia].
  cbn [nrem]. destruct (Z.eqb_spec (max - min) 0) as [Heq|Hne].
  - eexists. split; [reflexivity|]. split; [reflexivity|]. lia.
  - eexists. split; [reflexivity|]. split; [lia|]. intros Hlt. eexists. split; [reflexivity|].
    pose proof (Z.rem_opp_r (next_unsigned rng) (min - max) ltac:(lia)) as Hopp.
    replace (- (min - max)) with (max - min) in Hopp by lia. rewrite Hopp.
    pose proof (Z.rem_bound_pos (next_unsigned rng) (min - max) ltac:(lia) ltac:(lia)). lia.
Qed.

Lemma interval_degenerate_witness :
  exists r, generate (interval (Num 7) (Num 4)) 0 (makeRng 1) None
            = Some (Ok r, rounds 1 (makeRng 1)) /\
            (4 = 7 -> r = NaN) /\
            (4 < 7 -> exists x, r = Num x /\ 7 <= x < 7 + (7 - 4)).
Proof. apply (interval_degenerate 7 4 0%nat (makeRng 1) None); lia. Defined.

(** ** What the collections hold *)

Lemma ntimes_loop_yields {A} (g : Generator A) (P : A -> Prop) fuel size n :
  yields g P ->
  forall output rng l rng',
    Generator.ntimes_loop g fuel size n output rng = Some (Ok l, rng') ->
    exists l', l = output ++ l' /\ List.length l' = n /\ Forall P l'.
Proof.
  intros Hg. induction n as [|n IH]; intros output rng l rng'; cbn [Generator.ntimes_loop].
  - unfold ret. intros [= <- _]. exists []. rewrite app_nil_r. repeat split. constructor.
  - unfold bind, draw. destruct (generate g fuel rng size) as [[[a|e] rng1]|] eqn:Hdraw;
      try discriminate.
    intros Hrest. destruct (IH _ _ _ _ Hrest) as (l' & -> & Hlen & HP).
    exists (a :: l'). rewrite <- app_assoc. split; [reflexivity|]. split; [cbn; lia|].
    constructor; [eapply Hg, Hdraw|assumption].
Qed.

(** [g.ntimes(n)] returns exactly [n] values, each one a value of [g], when
    [n] is positive; for [n <= 0] it returns the empty array and leaves the
    state alone. *)
Theorem ntimes_values {A} (g : Generator A) (P : A -> Prop) n fuel rng size :
  yields g P ->
  (n <= 0 -> generate (Generator.ntimes g n) fuel rng size = Some (Ok [], rng)) /\
  (forall l rng', generate (Generator.ntimes g n) fuel rng size = Some (Ok l, rng') ->
                  List.length l = Z.to_nat n /\ Forall P l).
Proof.
  intros Hg. split.
  - intros Hn. unfold generate, Generator.ntimes, _generate.
    replace (Z.to_nat n) with 0%nat by lia. reflexivity.
  - intros l rng' Hrun. unfold generate, Generator.ntimes, _generate in Hrun.
    destruct (ntimes_loop_yields g P fuel size _ Hg _ _ _ _ Hrun) as (l' & -> & Hlen & HP).
    split; assumption.
Qed.

Lemma yields_nat : yields gen.nat (fun x => 0 <= x < 2 ^ 32).
Proof.
  intros fuel rng size a rng'. unfold generate, gen.nat, _generate, bind. rewrite rand_eq.
  unfold ret. intros [= <- _]. pose proof (randomInt32_range rng) as Hr.
  unfold randomInt32 in Hr. cbn [fst] in Hr. lia.
Qed.

Lemma ntimes_values_witness :
  (3 <= 0 -> generate (Generator.ntimes gen.nat 3) 0 (makeRng 1) None = Some (Ok [], makeRng 1)) /\
  (forall l rng', generate (Generator.ntimes gen.nat 3) 0 (makeRng 1) None = Some (Ok l, rng') ->
                  List.length l = Z.to_nat 3 /\ Forall (fun x => 0 <= x < 2 ^ 32) l).
Proof.
  apply (ntimes_values gen.nat (fun x => 0 <= x < 2 ^ 32) 3 0%nat (makeRng 1) None).
  apply yields_nat.
Defined.

Lemma fill_yields {A} (gen : Generator A) (P : A -> Prop) fuel size n :
  yields gen P ->
  forall rng l rng', fill gen fuel size n rng = Some (Ok l, rng') -> Forall P l.
Proof.
  intros Hg. induction n as [|n IH]; intros rng l rng'; cbn [fill].
  - unfold ret. intros [= <- _]. constructor.
  - unfold bind at 1, draw.
    destruct (generate gen fuel rng (Some size)) as [[[a|e] rng1]|] eqn:Hdraw; try discriminate.
    unfold bind. destruct (fill gen fuel size n rng1) as [[[rest|e] rng2]|] eqn:Hrest;
      try discriminate.
    unfold ret. intros [= <- _]. constructor; [eapply Hg, Hdraw|eapply IH, Hrest].
Qed.

(** The arrays of [array(g)] and [nearray(g)] hold values of [g] only: no
    slot is left empty, and a property of every value of [g] holds of every
    element. *)
Theorem array_values {A} (gen : Generator A) (P : A -> Prop) fuel rng size :
  yields gen P ->
  (forall l rng', generate (array gen) fuel rng size = Some (Ok l, rng') -> Forall P l) /\
  (forall l rng', generate (nearray gen) fuel rng size = Some (Ok l, rng') -> Forall P l).
Proof.
  intros Hg. split; intros l rng'; unfold generate; [unfold array|unfold nearray];
    cbn [_generate]; unfold bind at 1, draw at 1; rewrite interval_generate;
    unfold bind at 1;
    match goal with |- context [new_Array ?len ?r] =>
      destruct (new_Array len r) as [[[n|e] rng1]|]; try discriminate end;
    apply fill_yields; assumption.
Qed.

Lemma array_values_witness :
  (forall l rng', generate (array gen.nat) 0 (makeRng 1) None = Some (Ok l, rng') ->
                  Forall (fun x => 0 <= x < 2 ^ 32) l) /\
  (forall l rng', generate (nearray gen.nat) 0 (makeRng 1) None = Some (Ok l, rng') ->
                  Forall (fun x => 0 <= x < 2 ^ 32) l).
Proof.
  apply (array_values gen.nat (fun x => 0 <= x < 2 ^ 32) 0%nat (makeRng 1) None).
  apply yields_nat.
Defined.

(** ** [ascii] and [neascii] *)

Lemma yields_interval min max :
  valid_interval min max -> yields (interval (Num min) (Num max)) (fun r => exists x, r = Num x /\ min <= x < max).
Proof.
  intros Hvalid fuel rng size a rng'.
  destruct (interval_in_range min max fuel rng size Hvalid) as (x & -> & Hx).
  intros [= <- _]. exists x. split; [reflexivity|assumption].
Qed.

Lemma length_string_of_list_ascii l : String.length (string_of_list_ascii l) = List.length l.
Proof. induction l as [|c l IH]; cbn; [reflexivity|]. rewrite IH. reflexivity. Qed.

(** Code units of [[32, 127)] become a string of as many printable
    characters. *)
Lemma fromCharCode_printable chars :
  Forall (fun r => exists x, r = Num x /\ 32 <= x < 127) chars ->
  printable (fromCharCode chars) /\ String.length (fromCharCode chars) = List.length chars.
Proof.
  intros Hchars. unfold printable, fromCharCode.
  rewrite list_ascii_of_string_of_list_ascii, length_string_of_list_ascii, length_map.
  split; [|reflexivity].
  induction Hchars as [|r chars (x & -> & Hx) _ IH]; cbn [List.map]; constructor; [|exact IH].
  rewrite Z.mod_small by lia. unfold nat_of_ascii.
  rewrite N_ascii_embedding by lia. lia.
Qed.

(** For a size from [1] to under [2^32], [ascii] returns a string of
    printable ASCII characters of length under [logsize(size)], and
    [neascii] one of length at least [1] and at most [logsize(size)]. *)
Theorem ascii_printable fuel rng size :
  1 <= size < 2 ^ 32 ->
  exists k, logsize size = Num k /\
    (exists s rng', generate ascii fuel rng (Some size) = Some (Ok s, rng') /\
                    printable s /\ 0 <= Z.of_nat (String.length s) < k) /\
    (exists s rng', generate neascii fuel rng (Some size) = Some (Ok s, rng') /\
                    printable s /\ 1 <= Z.of_nat (String.length s) <= k).
Proof.
  intros Hsize. destruct (logsize_pos size ltac:(lia)) as (k & Hk & Hkr).
  assert (Htotal : total (interval (Num 32) (Num 127))).
  { intros f r s. rewrite interval_generate. eexists _, _. reflexivity. }
  assert (Hyields := yields_interval 32 127 ltac:(unfold valid_interval; lia)).
  exists k. split; [assumption|]. split.
  - unfold generate at 1, ascii, Generator.map. cbn [_generate]. unfold bind at 1, draw at 1.
    rewrite array_generate. unfold bind at 1, draw at 1. rewrite Hk.
    destruct (interval_in_range 0 k fuel rng None) as (x & -> & Hx); [unfold valid_interval; lia|].
    unfold bind at 1. rewrite new_Array_ok by lia.
    destruct (fill_total (interval (Num 32) (Num 127)) fuel size (Z.to_nat x)
                (snd (randomInt32 rng)) Htotal) as (l & rng' & Hfill).
    rewrite Hfill. unfold ret. eexists _, _. split; [reflexivity|].
    destruct (fromCharCode_printable l (fill_yields _ _ _ _ _ Hyields _ _ _ Hfill)) as (Hp & ->).
    split; [assumption|]. apply fill_length in Hfill. lia.
  - unfold generate at 1, neascii, Generator.map. cbn [_generate]. unfold bind at 1, draw at 1.
    rewrite nearray_generate. unfold bind at 1, draw at 1. rewrite Hk. cbn [nadd].
    destruct (interval_in_range 1 (k + 1) fuel rng None) as (x & -> & Hx);
      [unfold valid_interval; lia|].
    unfold bind at 1. rewrite new_Array_ok by lia.
    destruct (fill_total (interval (Num 32) (Num 127)) fuel size (Z.to_nat x)
                (snd (randomInt32 rng)) Htotal) as (l & rng' & Hfill).
    rewrite Hfill. unfold ret. eexists _, _. split; [reflexivity|].
    destruct (fromCharCode_printable l (fill_yields _ _ _ _ _ Hyields _ _ _ Hfill)) as (Hp & ->).
    split; [assumption|]. apply fill_length in Hfill. lia.
Qed.

Lemma ascii_printable_witness :
  exists k, logsize 100 = Num k /\
    (exists s rng', generate ascii 0 (makeRng 6) (Some 100) = Some (Ok s, rng') /\
                    printable s /\ 0 <= Z.of_nat (String.length s) < k) /\
    (exists s rng', generate neascii 0 (makeRng 6) (Some 100) = Some (Ok s, rng') /\
                    printable s /\ 1 <= Z.of_nat (String.length s) <= k).
Proof. apply (ascii_printable 0%nat (makeRng 6) 100). lia. Defined.

(** ** [frequency] *)

Lemma frequency_loop_selects {A} (args : list (Z * Generator A)) c fuel size :
  Forall (fun x => 0 <= fst x) args ->
  forall acc, acc <= c -> c < foldl (fun acc x => acc + fst x) acc args ->
  exists w g, (w, g) ∈ args /\ 0 < w /\
              frequency_loop args acc (Num c) fuel size = draw g fuel (Some size).
Proof.
  induction 1 as [|[w g] args Hw _ IH]; intros acc Hacc Hc; cbn [foldl frequency_loop fst] in *.
  - lia.
  - unfold ngt, nlt. destruct (Z.ltb_spec c (acc + w)) as [Hhit|Hmiss].
    + exists w, g. split; [left|]. split; [lia|reflexivity].
    + destruct (IH (acc + w) Hmiss Hc) as (w' & g' & Hin & Hw' & Hrun).
      exists w', g'. split; [right; assumption|]. split; assumption.
Qed.

Lemma frequency_loop_NaN {A} (args : list (Z * Generator A)) fuel size :
  forall acc, frequency_loop args acc NaN fuel size
              = throw (Error "Unreachable code (should never happen)").
Proof.
  induction args as [|[w g] args IH]; intros acc; cbn [frequency_loop]; [reflexivity|].
  apply IH.
Qed.

(** With weights that are not negative and sum to a positive integer, a
    draw from [frequency] spends one round on the choice and then draws from
    one of the given generators, one whose weight is positive, with the size
    defaulted to [100]: a generator of weight [0] is never used and the
    [Error] after the loop is never thrown.  With weights that sum to [0] the
    choice is [NaN] and every draw throws that [Error]. *)
Theorem frequency_selects {A} (args : list (Z * Generator A)) fuel rng size :
  Forall (fun x => 0 <= fst x) args ->
  foldl (fun acc x => acc + fst x) 0 args <= 2 ^ 52 ->
  (0 < foldl (fun acc x => acc + fst x) 0 args ->
   exists w g, (w, g) ∈ args /\ 0 < w /\
     generate (frequency args) fuel rng size
     = generate g fuel (rounds 1 rng) (Some (size_or_100 size))) /\
  (foldl (fun acc x => acc + fst x) 0 args = 0 ->
   generate (frequency args) fuel rng size
   = Some (Err (Error "Unreachable code (should never happen)"), rounds 1 rng)).
Proof.
  intros Hnonneg Hmax. split.
  - intros Hpos.
    destruct (interval_in_range 0 (foldl (fun acc x => acc + fst x) 0 args) fuel rng None)
      as (c & Hdraw & Hc); [unfold valid_interval; lia|].
    destruct (frequency_loop_selects args c fuel (size_or_100 size) Hnonneg 0 ltac:(lia) ltac:(lia))
      as (w & g & Hin & Hw & Hrun).
    exists w, g. split; [assumption|]. split; [assumption|].
    unfold generate at 1, frequency. cbn [_generate]. unfold bind, draw at 1.
    rewrite Hdraw, Hrun. reflexivity.
  - intros Hzero. unfold generate at 1, frequency. cbn [_generate]. unfold bind, draw at 1.
    rewrite Hzero, interval_generate. cbn. rewrite frequency_loop_NaN. reflexivity.
Qed.

Lemma frequency_selects_witness :
  (0 < foldl (fun acc x => acc + fst x) 0 [(3, gen.nat); (0, int); (2, gen.nat)] ->
   exists w g, (w, g) ∈ [(3, gen.nat); (0, int); (2, gen.nat)] /\ 0 < w /\
     generate (frequency [(3, gen.nat); (0, int); (2, gen.nat)]) 0 (makeRng 8) None
     = generate g 0 (rounds 1 (makeRng 8)) (Some (size_or_100 None))) /\
  (foldl (fun acc x => acc + fst x) 0 [(3, gen.nat); (0, int); (2, gen.nat)] = 0 ->
   generate (frequency [(3, gen.nat); (0, int); (2, gen.nat)]) 0 (makeRng 8) None
   = Some (Err (Error "Unreachable code (should never happen)"), rounds 1 (makeRng 8))).
Proof.
  apply (frequency_selects [(3, gen.nat); (0, int); (2, gen.nat)] 0%nat (makeRng 8) None).
  - repeat constructor; cbn; lia.
  - cbn. lia.
Defined.

(** ** [oneOf], [record], [ap] and [traverse] *)

(** A draw from [oneOf] of no generator throws a [TypeError] after one
    round; from a non-empty list it spends one round on the choice and then
    draws from one generator of the list, with the size defaulted to [100]. *)
Theorem oneOf_draws {A} (generators : list (Generator A)) fuel rng size :
  Z.of_nat (List.length generators) < 2 ^ 32 ->
  (generators = [] ->
   generate (oneOf generators) fuel rng size = Some (Err TypeError, rounds 1 rng)) /\
  (generators <> [] ->
   exists g, g ∈ generators /\
     generate (oneOf generators) fuel rng size
     = generate g fuel (rounds 1 rng) (Some (size_or_100 size))).
Proof.
  intros Hlen. split.
  - intros ->. unfold generate at 1, oneOf. cbn [_generate]. unfold bind, draw.
    rewrite interval_generate. reflexivity.
  - intros Hne.
    assert (Hpos : 0 < Z.of_nat (List.length generators)).
    { destruct generators; [contradiction|cbn [List.length]; lia]. }
    destruct (interval_in_range 0 (Z.of_nat (List.length generators)) fuel rng None)
      as (x & Hdraw & Hx); [unfold valid_interval; lia|].
    destruct (index_in_range generators x Hx) as (g & Hg & Hin).
    exists g. split; [assumption|].
    unfold generate at 1, oneOf. cbn [_generate]. unfold bind, draw at 1, len.
    rewrite Hdraw, Hg. reflexivity.
Qed.

Lemma oneOf_draws_witness :
  ([gen.nat; int] = [] ->
   generate (oneOf [gen.nat; int]) 0 (makeRng 1) None = Some (Err TypeError, rounds 1 (makeRng 1))) /\
  ([gen.nat; int] <> [] ->
   exists g, g ∈ [gen.nat; int] /\
     generate (oneOf [gen.nat; int]) 0 (makeRng 1) None
     = generate g 0 (rounds 1 (makeRng 1)) (Some (size_or_100 None))).
Proof. apply (oneOf_draws [gen.nat; int] 0%nat (makeRng 1) None). cbn. lia. Defined.








Lemma traverse_loop_each {A B} (arr : list A) (f : A -> Generator B) (R : A -> B -> Prop)
    fuel size :
  (forall a, yields (f a) (R a)) ->
  forall output rng out rng',
    traverse_loop arr f fuel size output rng = Some (Ok out, rng') ->
    exists bs, out = output ++ bs /\ Forall2 R arr bs.
Proof.
  intros Hf. induction arr as [|a arr IH]; intros output rng out rng'; cbn [traverse_loop].
  - unfold ret. intros [= <- _]. exists []. rewrite app_nil_r. split; [reflexivity|constructor].
  - unfold bind, draw. destruct (generate (f a) fuel rng size) as [[[b|e] rng1]|] eqn:Hdraw;
      try discriminate.
    intros Hrest. destruct (IH _ _ _ _ Hrest) as (bs & -> & Hbs).
    exists (b :: bs). rewrite <- app_assoc. split; [reflexivity|].
    constructor; [eapply Hf, Hdraw|assumption].
Qed.

(** [traverse(arr, f)] returns one result for each element of [arr], in
    the order of [arr], the [i]-th one a value of the generator [f(arr[i])];
    with [f = of] it returns [arr] and leaves the state alone. *)
Theorem traverse_each {A B} (arr : list A) (f : A -> Generator B) (R : A -> B -> Prop)
    fuel rng size :
  (forall a, yields (f a) (R a)) ->
  (forall out rng', generate (traverse arr f) fuel rng size = Some (Ok out, rng') ->
                    Forall2 R arr out) /\
  generate (traverse arr of_) fuel rng size = Some (Ok arr, rng).
Proof.
  intros Hf. split.
  - intros out rng' Hrun. unfold generate, traverse, _generate in Hrun.
    destruct (traverse_loop_each arr f R fuel size Hf _ _ _ _ Hrun) as (bs & -> & Hbs).
    exact Hbs.
  - unfold generate, traverse, _generate.
    assert (Hloop : forall output, traverse_loop arr of_ fuel size output rng
                                   = Some (Ok (output ++ arr), rng)).
    { induction arr as [|a arr IH]; intros output; cbn [traverse_loop].
      - rewrite app_nil_r. reflexivity.
      - unfold bind, draw, generate, of_. cbn [_generate]. unfold ret. rewrite IH, <- app_assoc.
        reflexivity. }
    apply (Hloop []).
Qed.

Lemma traverse_each_witness :
  (forall out rng',
      generate (traverse [1; 5; 9] (fun a => Generator.map gen.nat (fun x => x + a))) 0
        (makeRng 1) None = Some (Ok out, rng') ->
      Forall2 (fun a b => a <= b) [1; 5; 9] out) /\
  generate (traverse [1; 5; 9] of_) 0 (makeRng 1) None = Some (Ok [1; 5; 9], makeRng 1).
Proof.
  apply (traverse_each [1; 5; 9] (fun a => Generator.map gen.nat (fun x => x + a))
           (fun a b => a <= b) 0%nat (makeRng 1) None).
  intros a fuel rng size b rng'. unfold generate, Generator.map. cbn [_generate].
  unfold bind, draw. destruct (generate gen.nat fuel rng size) as [[[x|e] rng1]|] eqn:Hx;
    try discriminate.
  unfold ret. intros [= <- _]. pose proof (yields_nat _ _ _ _ _ Hx). cbn beta in *. lia.
Defined.

(** ** Two filters in a row *)

Lemma suchThat_loop_count {A} (g : Generator A) pred fuel size n n' :
  (n <= n')%nat ->
  extends (Generator.suchThat_loop g pred fuel size n) (Generator.suchThat_loop g pred fuel size n').
Proof.
  revert n'. induction n as [|n IH]; intros n' Hn.
  - intros rng r. discriminate.
  - destruct n' as [|n']; [lia|]. cbn [Generator.suchThat_loop].
    apply extends_bind; [apply extends_refl|].
    intros a _ _ _. destruct (pred a); [apply extends_refl|]. apply IH. lia.
Qed.

Section fusion.
Context {A : Type} (g : Generator A) (p q : A -> bool) (F : nat) (size : option Z).

(** The filter by both predicates finds its result no later than the two
    filters in a row have looked at the same draws. *)
Lemma fused_to_nested n :
  forall j m rng r,
    (n <= j)%nat -> (n <= S m)%nat -> (n <= S F)%nat ->
    Generator.suchThat_loop g (fun a => p a && q a) F size n rng = Some r ->
    bind (Generator.suchThat_loop g p F size j)
         (fun b => if q b then ret b
                   else Generator.suchThat_loop (Generator.suchThat g p) q F size m) rng
    = Some r.
Proof.
  induction n as [|n IH]; intros j m rng r Hj Hm HF; cbn [Generator.suchThat_loop].
  - discriminate.
  - destruct j as [|j]; [lia|]. cbn [Generator.suchThat_loop].
    unfold bind at 1 2 3, draw.
    destruct (generate g F rng size) as [[[a|e] rng1]|]; [|intros H; exact H|discriminate].
    destruct (p a) eqn:Hp; cbn [andb].
    + unfold ret at 2. destruct (q a) eqn:Hq.
      * intros H. exact H.
      * intros Hrest. destruct n as [|n']; [discriminate|].
        destruct m as [|m]; [lia|]. cbn [Generator.suchThat_loop].
        change (draw (Generator.suchThat g p) F size)
          with (Generator.suchThat_loop g p F size F).
        apply (IH F m rng1 r); [lia|lia|lia|exact Hrest].
    + intros Hrest. apply (IH j m rng1 r); [lia|lia|lia|exact Hrest].
Qed.

(** The two filters in a row look at no other draws than the filter by
    both predicates does. *)
Lemma nested_to_fused m :
  forall j rng r,
    bind (Generator.suchThat_loop g p F size j)
         (fun b => if q b then ret b
                   else Generator.suchThat_loop (Generator.suchThat g p) q F size m) rng
    = Some r ->
    Generator.suchThat_loop g (fun a => p a && q a) F size (j + m * F) rng = Some r.
Proof.
  induction m as [|m IHm]; induction j as [|j IHj]; intros rng r;
    try (unfold bind; cbn [Generator.suchThat_loop]; discriminate).
  - cbn [Nat.add]. cbn [Generator.suchThat_loop]. unfold bind at 1 2 3, draw.
    destruct (generate g F rng size) as [[[a|e] rng1]|]; [|intros H; exact H|discriminate].
    destruct (p a) eqn:Hp; cbn [andb].
    + unfold ret at 1. destruct (q a); [intros H; exact H|discriminate].
    + apply IHj.
  - set (K := Generator.suchThat_loop (Generator.suchThat g p) q F size (S m)) in *.
    cbn [Nat.add]. cbn [Generator.suchThat_loop]. unfold bind at 1 2 3, draw.
    destruct (generate g F rng size) as [[[a|e] rng1]|]; [|intros H; exact H|discriminate].
    destruct (p a) eqn:Hp; cbn [andb].
    + unfold ret at 1. destruct (q a); [intros H; exact H|].
      subst K. cbn [Generator.suchThat_loop].
      change (draw (Generator.suchThat g p) F size)
        with (Generator.suchThat_loop g p F size F).
      intros Hrest. apply IHm in Hrest.
      eapply (suchThat_loop_count g _ F size (F + m * F)); [|exact Hrest]. lia.
    + apply IHj.
Qed.

End fusion.

(** Filtering by [p] and then by [q] gives the results of filtering by both
    at once: [g.suchThat(p).suchThat(q)] returns a result for some number of
    allowed iterations exactly when [g.suchThat(a => p(a) && q(a))] returns
    it for some number. *)
Theorem suchThat_twice {A} (g : Generator A) (p q : A -> bool) rng size r :
  stable g ->
  (exists fuel,
      generate (Generator.suchThat (Generator.suchThat g p) q) fuel rng size = Some r) <->
  (exists fuel,
      generate (Generator.suchThat g (fun a => p a && q a)) fuel rng size = Some r).
Proof.
  intros Hg. split; intros [fuel Hrun]; unfold generate, Generator.suchThat at 1 in Hrun;
    cbn [_generate] in Hrun.
  - destruct fuel as [|m]; [discriminate|]. cbn [Generator.suchThat_loop] in Hrun.
    change (draw (Generator.suchThat g p) (S m) size)
      with (Generator.suchThat_loop g p (S m) size (S m)) in Hrun.
    apply nested_to_fused in Hrun.
    exists (S m + m * S m)%nat. unfold generate, Generator.suchThat. cbn [_generate].
    eapply (suchThat_loop_extends g _ size (S m) _ _ _ Hg); [| |exact Hrun]; lia.
  - exists fuel. unfold generate, Generator.suchThat at 1. cbn [_generate].
    destruct fuel as [|m]; [discriminate|]. cbn [Generator.suchThat_loop].
    change (draw (Generator.suchThat g p) (S m) size)
      with (Generator.suchThat_loop g p (S m) size (S m)).
    apply (fused_to_nested g p q (S m) size (S m)); [lia|lia|lia|exact Hrun].
Qed.

Lemma stable_nat : stable gen.nat.
Proof. intros fuel fuel' size _. apply extends_refl. Qed.

Lemma suchThat_twice_witness :
  (exists fuel,
      generate (Generator.suchThat (Generator.suchThat gen.nat Z.even) (fun x => x <? 2 ^ 31))
        fuel (makeRng 1) None
      = Some (Ok 575746804, rounds 1 (makeRng 1))) <->
  (exists fuel,
      generate (Generator.suchThat gen.nat (fun a => Z.even a && (a <? 2 ^ 31)))
        fuel (makeRng 1) None
      = Some (Ok 575746804, rounds 1 (makeRng 1))).
Proof.
  apply (suchThat_twice gen.nat Z.even (fun x => x <? 2 ^ 31) (makeRng 1) None
           (Ok 575746804, rounds 1 (makeRng 1))).
  apply stable_nat.
Defined.

(** ** The rounds a draw takes *)

Lemma rounds_S_r n rng : rounds (S n) rng = rounds n (snd (randomInt32 rng)).
Proof.
  unfold rounds. apply Nat.iter_succ_r.
Qed.

Lemma shuffle_loop_rounds {A} fuel k :
  forall i (l : list A) rng,
    0 <= i -> Z.of_nat (List.length l) < 2 ^ 32 ->
    Z.to_nat (Z.of_nat (List.length l) - 1 - i) = k ->
    exists l',
      forall n, (k <= n)%nat ->
                shuffle_loop fuel n i (Some <$> l) rng = Some (Ok (Some <$> l'), rounds k rng).
Proof.
  induction k as [|k IH]; intros i l rng Hi Hlen Hk.
  - exists l. intros n _.
    destruct n as [|n]; cbn [shuffle_loop]; [reflexivity|].
    unfold len. rewrite length_fmap. cbn [nsub nlt].
    destruct (Z.ltb_spec i (Z.of_nat (List.length l) - 1)); [lia|reflexivity].
  - destruct (interval_in_range 0 (Z.of_nat (List.length l) - i) fuel rng None)
      as (j & Hdraw & Hj); [unfold valid_interval; lia|].
    destruct (lookup_lt_is_Some_2 l (Z.to_nat i) ltac:(lia)) as [a Ha].
    destruct (lookup_lt_is_Some_2 l (Z.to_nat (i + j)) ltac:(lia)) as [b Hb].
    set (l1 := <[Z.to_nat (i + j) := a]> (<[Z.to_nat i := b]> l)).
    assert (Hlen1 : List.length l1 = List.length l).
    { subst l1. rewrite !length_insert. reflexivity. }
    destruct (IH (i + 1) l1 (snd (randomInt32 rng)) ltac:(lia) ltac:(lia) ltac:(lia))
      as (l' & Hrun).
    exists l'. intros n Hn. destruct n as [|n]; [lia|]. cbn [shuffle_loop].
    unfold len. rewrite length_fmap. cbn [nsub nlt].
    destruct (Z.ltb_spec i (Z.of_nat (List.length l) - 1)); [|lia].
    unfold bind, draw. rewrite Hdraw. cbn [nadd].
    rewrite !js_get_Some by lia. rewrite Ha, Hb.
    rewrite js_set_Some by lia.
    rewrite js_set_Some by (rewrite length_insert; lia).
    rewrite rounds_S_r. apply Hrun. lia.
Qed.

(** A draw from [shuffle(xs)] calls the PRNG once for each index but the
    last: [length - 1] rounds, none for an array of at most one element. *)
Theorem shuffle_rounds {A} (xs : list A) fuel rng size :
  Z.of_nat (List.length xs) < 2 ^ 32 ->
  exists ys, generate (shuffle xs) fuel rng size
             = Some (Ok (Some <$> ys), rounds (List.length xs - 1) rng).
Proof.
  intros Hlen.
  destruct (shuffle_loop_rounds fuel (List.length xs - 1) 0 xs rng ltac:(lia) Hlen ltac:(lia))
    as (ys & Hrun).
  exists ys. unfold generate, shuffle, _generate. rewrite length_fmap. apply Hrun. lia.
Qed.

Lemma shuffle_rounds_witness :
  exists ys, generate (shuffle [1; 2; 3; 4]) 0 (makeRng 1) None
             = Some (Ok (Some <$> ys), rounds (List.length [1; 2; 3; 4] - 1) (makeRng 1)).
Proof. apply (shuffle_rounds [1; 2; 3; 4] 0%nat (makeRng 1) None). cbn. lia. Defined.

(** ** [partitions] with weights that sum to zero *)




(** ** The depth of [recursive] *)

Lemma recursive_loop_depth {A} (genZ : Generator A) genS chanceGen fuel n :
  forall rng g rng',
    recursive_loop genZ genS chanceGen fuel true n rng = Some (Ok g, rng') ->
    exists k, (k <= n)%nat /\ g = Nat.iter k genS genZ.
Proof.
  induction n as [|n IH]; intros rng g rng'; cbn [recursive_loop].
  - unfold ret. intros [= <- _]. exists 0%nat. split; [lia|reflexivity].
  - unfold bind at 1. destruct (draw chanceGen fuel None rng) as [[[chance|e] rng1]|];
      try discriminate.
    destruct (nne chance (Num 0)).
    + unfold bind. destruct (recursive_loop genZ genS chanceGen fuel true n rng1)
        as [[[self|e] rng2]|] eqn:Hself; try discriminate.
      unfold ret. intros [= <- _]. destruct (IH _ _ _ Hself) as (k & Hk & ->).
      exists (S k). split; [lia|reflexivity].
    + unfold ret. intros [= <- _]. exists 0%nat. split; [lia|reflexivity].
Qed.

(** For a size from [0] to under [2^32], a draw from
    [recursive(genZ, genS)] is a draw from [genS] applied [k] times to
    [genZ], for a [k] that the chances pick and that is at most
    [logsize(size)]; at size [0] it is a draw from [genZ] on the untouched
    state. *)
Theorem recursive_depth {A} (genZ : Generator A) (genS : Generator A -> Generator A)
    fuel rng size :
  0 <= size < 2 ^ 32 ->
  exists n, logsize size = Num (Z.of_nat n) /\
    (exists k rng', (k <= n)%nat /\
       generate (recursive genZ genS) fuel rng (Some size)
       = generate (Nat.iter k genS genZ) fuel rng' (Some size)) /\
    (size = 0 ->
     generate (recursive genZ genS) fuel rng (Some size) = generate genZ fuel rng (Some size)).
Proof.
  intros [Hsize _].
  set (m := (Z.log2 ((size + 1) * (size + 1)) + 1) / 2).
  assert (Hm : 0 <= m).
  { subst m. pose proof (Z.log2_nonneg ((size + 1) * (size + 1))).
    Z.to_euclidean_division_equations. lia. }
  exists (Z.to_nat m). split; [rewrite Z2Nat.id by lia; apply logsize_value; assumption|].
  split.
  - unfold generate at 1, recursive, size_or_100. cbn [_generate default id].
    rewrite (logsize_value size Hsize). fold m.
    assert (Hloop : exists g rng',
               recursive_loop genZ genS (interval (Num 0) (Num 3)) fuel true (Z.to_nat m) rng
               = Some (Ok g, rng')).
    { generalize (Z.to_nat m) as n. intros n. revert rng.
      induction n as [|n IH]; intros rng; cbn [recursive_loop].
      - eexists _, _. reflexivity.
      - unfold bind at 1, draw. rewrite interval_generate.
        match goal with |- context [nne ?c (Num 0)] => destruct (nne c (Num 0)) end.
        + unfold bind. destruct (IH (snd (randomInt32 rng))) as (self & rng' & ->).
          eexists _, _. reflexivity.
        + eexists _, _. reflexivity. }
    destruct Hloop as (g & rng' & Hloop).
    destruct (recursive_loop_depth _ _ _ _ _ _ _ _ Hloop) as (k & Hk & ->).
    exists k, rng'. split; [assumption|]. unfold bind. rewrite Hloop. reflexivity.
  - intros ->. reflexivity.
Qed.

Lemma recursive_depth_witness :
  exists n, logsize 3 = Num (Z.of_nat n) /\
    (exists k rng', (k <= n)%nat /\
       generate (recursive gen.nat (fun self => Generator.map self (fun x => x + 1))) 0
         (makeRng 1) (Some 3)
       = generate (Nat.iter k (fun self => Generator.map self (fun x => x + 1)) gen.nat) 0 rng'
           (Some 3)) /\
    (3 = 0 ->
     generate (recursive gen.nat (fun self => Generator.map self (fun x => x + 1))) 0
       (makeRng 1) (Some 3)
     = generate gen.nat 0 (makeRng 1) (Some 3)).
Proof.
  apply (recursive_depth gen.nat (fun self => Generator.map self (fun x => x + 1)) 0%nat
           (makeRng 1) 3).
  lia.
Defined.

(** ** The sequences of the shrinkers *)

Lemma halvings_sorted bound i :
  0 <= i < 2 ^ 31 -> StronglySorted (fun a b => b < a) (halvings bound i).
Proof.
  remember (Z.to_nat i) as n eqn:Hn. revert i Hn.
  induction (lt_wf n) as [n _ IH]. intros i Hn Hi.
  rewrite halvings_step, sar32_1 by lia.
  destruct (Z_lt_dec (Z.of_N bound) (i / 2)) as [more|_].
  - assert (Hhalf : 0 < i / 2 < i) by (Z.to_euclidean_division_equations; lia).
    constructor.
    + apply (IH (Z.to_nat (i / 2))); [lia|reflexivity|lia].
    + eapply Forall_impl; [apply halvings_below; lia|]. cbn beta. intros c Hc. lia.
  - repeat constructor.
Qed.

Lemma halvings_last i : 0 <= i < 2 ^ 31 -> List.last (halvings 0 i) 1 = 0.
Proof.
  remember (Z.to_nat i) as n eqn:Hn. revert i Hn.
  induction (lt_wf n) as [n _ IH]. intros i Hn Hi.
  rewrite halvings_step, sar32_1 by lia.
  destruct (Z_lt_dec (Z.of_N 0) (i / 2)) as [more|done].
  - assert (Hhalf : 0 < i / 2 < i) by (Z.to_euclidean_division_equations; lia).
    pose proof (IH (Z.to_nat (i / 2)) ltac:(lia) (i / 2) eq_refl ltac:(lia)) as Hlast.
    rewrite halvings_step in Hlast |- *. exact Hlast.
  - cbn [List.last]. change (Z.of_N 0) with 0 in done. pose proof (Z.div_pos i 2). lia.
Qed.

(** For every integer of [[0, 2^31)], the candidates of [smaller.nat] go
    strictly down and the last one is [0]. *)
Theorem smaller_nat_descends x :
  0 <= x < 2 ^ 31 ->
  StronglySorted (fun a b => b < a) (smaller.nat x) /\ List.last (smaller.nat x) 1 = 0.
Proof.
  intros Hx. unfold smaller.nat. rewrite toInt32_small by lia.
  split; [apply halvings_sorted|apply halvings_last]; assumption.
Qed.

Lemma smaller_nat_descends_witness :
  StronglySorted (fun a b => b < a) (smaller.nat 1000) /\ List.last (smaller.nat 1000) 1 = 0.
Proof. apply (smaller_nat_descends 1000). lia. Defined.

(** An integer of [[2^31, 2^32)], as half of the outputs of [gen.nat] are,
    wraps at [x | 0]: [smaller.nat] returns one candidate, and it is
    negative. *)
Theorem smaller_nat_large x :
  2 ^ 31 <= x < 2 ^ 32 -> smaller.nat x = [(x - 2 ^ 32) / 2] /\ (x - 2 ^ 32) / 2 < 0.
Proof.
  intros Hx. unfold smaller.nat.
  assert (Hwrap : toInt32 x = x - 2 ^ 32).
  { unfold toInt32. replace (x + 2 ^ 31) with (x - 2 ^ 31 + 1 * 2 ^ 32) by lia.
    rewrite Z_mod_plus_full, Z.mod_small by lia. lia. }
  rewrite Hwrap, halvings_step, sar32_1 by lia.
  assert (Hneg : (x - 2 ^ 32) / 2 < 0) by (Z.to_euclidean_division_equations; lia).
  split; [|assumption].
  destruct (Z_lt_dec (Z.of_N 0) ((x - 2 ^ 32) / 2)) as [more|_]; [|reflexivity].
  change (Z.of_N 0) with 0 in more. lia.
Qed.

Lemma smaller_nat_large_witness :
  smaller.nat 3000000000 = [(3000000000 - 2 ^ 32) / 2] /\ (3000000000 - 2 ^ 32) / 2 < 0.
Proof. apply (smaller_nat_large 3000000000). lia. Defined.

Lemma halvings_within bound i :
  0 <= i < 2 ^ 31 -> Forall (fun c => 0 <= c <= i) (halvings bound i).
Proof.
  intros Hi. destruct (Z.eq_dec i 0) as [->|Hne].
  - rewrite halvings_step. change (sar32 0 1) with 0.
    destruct (Z_lt_dec (Z.of_N bound) 0) as [more|_]; [lia|]. repeat constructor; lia.
  - eapply Forall_impl; [apply halvings_below; lia|]. cbn beta. intros c Hc. lia.
Qed.

Lemma halvings_last_1 i : 2 <= i < 2 ^ 31 -> List.last (halvings 1 i) 0 = 1.
Proof.
  remember (Z.to_nat i) as n eqn:Hn. revert i Hn.
  induction (lt_wf n) as [n _ IH]. intros i Hn Hi.
  rewrite halvings_step, sar32_1 by lia.
  destruct (Z_lt_dec (Z.of_N 1) (i / 2)) as [more|done].
  - change (Z.of_N 1) with 1 in more.
    assert (Hhalf : 2 <= i / 2 < i) by (Z.to_euclidean_division_equations; lia).
    pose proof (IH (Z.to_nat (i / 2)) ltac:(lia) (i / 2) eq_refl ltac:(lia)) as Hlast.
    rewrite halvings_step in Hlast |- *. exact Hlast.
  - cbn [List.last]. change (Z.of_N 1) with 1 in done. Z.to_euclidean_division_equations. lia.
Qed.

Lemma last_map {A B} (f : A -> B) l d : List.last (List.map f l) (f d) = f (List.last l d).
Proof.
  induction l as [|a l IH]; [reflexivity|]. destruct l as [|b l]; [reflexivity|]. exact IH.
Qed.

Lemma last_cons_default {A} (a : A) l d d' : List.last (a :: l) d = List.last (a :: l) d'.
Proof. revert a. induction l as [|b l IH]; intros a; [reflexivity|]. exact (IH b). Qed.

Lemma substr0_prefix x i : 0 <= i <= Z.of_nat (String.length x) -> prefix (substr0 x i) x = true.
Proof.
  intros Hi. apply prefix_correct.
  pose proof (substr0_length x i Hi) as Hlen.
  replace (String.length (substr0 x i)) with (Z.to_nat i) by lia. reflexivity.
Qed.

(** The candidates of [smaller.string] and of [smaller.nestring] are
    prefixes of the string; the last candidate of [smaller.string] is the
    empty string, and for a string of two characters or more the last
    candidate of [smaller.nestring] has one character. *)
Theorem shrunk_strings_are_prefixes (x : string) :
  Z.of_nat (String.length x) < 2 ^ 31 ->
  Forall (fun c => prefix c x = true) (smaller.string x) /\
  List.last (smaller.string x) x = ""%string /\
  Forall (fun c => prefix c x = true) (smaller.nestring x) /\
  ((2 <= String.length x)%nat -> String.length (List.last (smaller.nestring x) x) = 1%nat).
Proof.
  intros Hlen.
  assert (Hprefix : forall bound,
             Forall (fun c => prefix c x = true)
                    (List.map (substr0 x) (halvings bound (Z.of_nat (String.length x))))).
  { intros bound. apply Forall_forall. intros c Hc. apply list_elem_of_In, in_map_iff in Hc.
    destruct Hc as (i & <- & Hi).
    pose proof (halvings_within bound (Z.of_nat (String.length x)) ltac:(lia)) as Hall.
    rewrite Forall_forall in Hall. specialize (Hall i ltac:(apply list_elem_of_In; assumption)).
    apply substr0_prefix. lia. }
  assert (Hfull : substr0 x (Z.of_nat (String.length x)) = x).
  { unfold substr0. rewrite Nat2Z.id. clear.
    induction x as [|c x IH]; cbn; [reflexivity|]. rewrite IH. reflexivity. }
  split; [apply Hprefix|]. split; [|split; [apply Hprefix|]].
  - unfold smaller.string.
    replace (List.last (List.map (substr0 x) (halvings 0 (Z.of_nat (String.length x)))) x)
      with (List.last (List.map (substr0 x) (halvings 0 (Z.of_nat (String.length x))))
              (substr0 x (Z.of_nat (String.length x)))) by (rewrite Hfull; reflexivity).
    rewrite last_map.
    assert (Hlast : List.last (halvings 0 (Z.of_nat (String.length x)))
                      (Z.of_nat (String.length x)) = 0).
    { pose proof (halvings_last (Z.of_nat (String.length x)) ltac:(lia)) as H1.
      rewrite halvings_step in H1 |- *. rewrite (last_cons_default _ _ _ 1). exact H1. }
    rewrite Hlast. unfold substr0. destruct x; reflexivity.
  - intros Htwo. unfold smaller.nestring.
    replace (List.last (List.map (substr0 x) (halvings 1 (Z.of_nat (String.length x)))) x)
      with (List.last (List.map (substr0 x) (halvings 1 (Z.of_nat (String.length x))))
              (substr0 x (Z.of_nat (String.length x)))) by (rewrite Hfull; reflexivity).
    rewrite last_map.
    assert (Hlast : List.last (halvings 1 (Z.of_nat (String.length x)))
                      (Z.of_nat (String.length x)) = 1).
    { pose proof (halvings_last_1 (Z.of_nat (String.length x)) ltac:(lia)) as H1.
      rewrite halvings_step in H1 |- *. rewrite (last_cons_default _ _ _ 0). exact H1. }
    rewrite Hlast. apply Nat2Z.inj. rewrite substr0_length by lia. reflexivity.
Qed.

Lemma shrunk_strings_are_prefixes_witness :
  Forall (fun c => prefix c "abcdefg" = true) (smaller.string "abcdefg") /\
  List.last (smaller.string "abcdefg") "abcdefg"%string = ""%string /\
  Forall (fun c => prefix c "abcdefg" = true) (smaller.nestring "abcdefg") /\
  ((2 <= String.length "abcdefg")%nat ->
   String.length (List.last (smaller.nestring "abcdefg") "abcdefg"%string) = 1%nat).
Proof. apply (shrunk_strings_are_prefixes "abcdefg"). cbn. lia. Defined.

(** [smaller.array] does not shrink: it returns one or more candidates and
    each one is the input array itself; its second argument is not used. *)
Theorem smaller_array_copies {A} (xs : list A) (shr : A -> list A) :
  exists n, (1 <= n)%nat /\ smaller.array xs shr = replicate n xs.
Proof.
  unfold smaller.array. exists (List.length (halvings 0 (Z.of_nat (List.length xs)))). split.
  - rewrite halvings_step. cbn [List.length]. lia.
  - induction (halvings 0 (Z.of_nat (List.length xs))) as [|i l IH]; [reflexivity|].
    cbn [List.map List.length replicate]. rewrite IH. reflexivity.
Qed.

(** ** The primitives of [Arbitrary] *)

Lemma printable_substr0 x i : printable x -> printable (substr0 x i).
Proof.
  unfold printable, substr0. generalize (Z.to_nat i) as n. clear i. intros n. revert n.
  induction x as [|c x IH]; intros n Hx.
  - destruct n; cbn; constructor.
  - cbn [list_ascii_of_string] in Hx. inversion Hx as [|? ? Hc Hrest]; subst.
    destruct n as [|n]; cbn [substring list_ascii_of_string]; constructor; [assumption|].
    apply IH. assumption.
Qed.

(** The shrinker that [Arbitrary] pairs with [ascii] stays within the
    strings [ascii] generates: every candidate for a string of printable
    characters is a string of printable characters, and no longer.  The
    primitives use the generators and shrinkers of the same name and no
    display function. *)
Theorem arbitrary_ascii_closed (s : string) :
  printable s -> Z.of_nat (String.length s) < 2 ^ 31 ->
  generator arbitrary.ascii = ascii /\ show arbitrary.ascii = None /\
  exists f, shrink arbitrary.ascii = Some f /\
            Forall (fun c => printable c /\ (String.length c <= String.length s)%nat) (f s).
Proof.
  intros Hs Hlen. split; [reflexivity|]. split; [reflexivity|].
  exists smaller.string. split; [reflexivity|].
  unfold smaller.string. apply Forall_forall. intros c Hc.
  apply list_elem_of_In, in_map_iff in Hc. destruct Hc as (i & <- & Hi).
  split; [apply printable_substr0; assumption|].
  pose proof (halvings_within 0 (Z.of_nat (String.length s)) ltac:(lia)) as Hall.
  rewrite Forall_forall in Hall. specialize (Hall i ltac:(apply list_elem_of_In; assumption)).
  pose proof (substr0_length s i ltac:(lia)). lia.
Qed.

Lemma arbitrary_ascii_closed_witness :
  generator arbitrary.ascii = ascii /\ show arbitrary.ascii = None /\
  exists f, shrink arbitrary.ascii = Some f /\
            Forall (fun c => printable c /\ (String.length c <= String.length "hello")%nat)
                   (f "hello"%string).
Proof.
  apply (arbitrary_ascii_closed "hello").
  - unfold printable. cbn. repeat constructor; lia.
  - cbn. lia.
Defined.
